(** * Palette Color Lookup Tables of dicom-microscopy-viewer ([src/color.js])

    A shallow embedding of the class [PaletteColorLookupTable]: its
    constructor, the segmented-data decoder [_expandSegmentedLUTData] and
    the lazily cached [data] getter, followed by the properties of the
    specification that were checked against it. *)

From Stdlib Require Import ZArith QArith Qround Lqa Lia String.
From stdpp Require Import base list.

Local Open Scope Z_scope.

(** ** The fragment of JavaScript the class relies on *)

Module JS.

(** The values that flow through the class: [undefined] (a read outside an
    array), [NaN], and integers.  Program tokens, table entries, lengths
    and offsets are integers; the only fractions are the interpolation step
    and the rescaled sample, and both are rounded before they are stored. *)
Inductive value : Type :=
| Undefined
| NaN
| Int (z : Z).

(** The numbers of an arithmetic expression: a rational, or [None] for
    [NaN].  Table entries and the tokens of segmented data are 16-bit
    words; on such operands a quotient, and a sum of an entry and a
    quotient, lie further from the next half-integer than a double rounds,
    or lie on it exactly, so that [Math.round] of the double is the
    rounding of the exact rational.  Beyond that range the model keeps the
    exact rational, which a double does not: the properties of sums and
    quotients that are not integers are stated for words only. *)
Definition number : Type := option Q.

Definition ToNumber (v : value) : number :=
  match v with
  | Int z => Some (inject_Z z)
  | NaN | Undefined => None
  end.

Definition add (x y : number) : number :=
  match x, y with
  | Some a, Some b => Some (a + b)%Q
  | _, _ => None
  end.

Definition sub (x y : number) : number :=
  match x, y with
  | Some a, Some b => Some (a - b)%Q
  | _, _ => None
  end.

Definition mul (x y : number) : number :=
  match x, y with
  | Some a, Some b => Some (a * b)%Q
  | _, _ => None
  end.

(** [x / y].  A zero divisor gives an infinity or [NaN] in JavaScript; the
    model has no infinities and answers [NaN].  The class divides by the
    segment length, and uses the quotient only inside a loop that runs when
    the length is positive, and by the constant [65535]. *)
Definition div (x y : number) : number :=
  match x, y with
  | Some a, Some b => if Qeq_bool b 0 then None else Some (a / b)%Q
  | _, _ => None
  end.

(** [Math.round]: the nearest integer, a tie going up. *)
Definition round (x : number) : value :=
  match x with
  | Some q => Int (Qfloor (q + (1 # 2)))
  | None => NaN
  end.

(** [a + b] and [a - b] on offsets and lengths, which are integers or, once
    an operand was read past the end of the program, [NaN]. *)
Definition iadd (a b : value) : value :=
  match a, b with
  | Int x, Int y => Int (x + y)
  | _, _ => NaN
  end.

Definition isub (a b : value) : value :=
  match a, b with
  | Int x, Int y => Int (x - y)
  | _, _ => NaN
  end.

(** [new Set(xs).size] *)
Definition Set_size `{EqDecision A} (xs : list A) : nat :=
  length (remove_dups xs).

(** *** Typed arrays *)

Inductive DataType : Type := Uint8Array | Uint16Array.

Definition bits (T : DataType) : Z :=
  match T with
  | Uint8Array => 8
  | Uint16Array => 16
  end.

(** The conversion a typed array applies to a stored value: integers wrap
    around modulo [2^bits], [NaN] and [undefined] become [0]. *)
Definition ToUint (T : DataType) (v : value) : Z :=
  match v with
  | Int z => z mod 2 ^ bits T
  | NaN | Undefined => 0
  end.

(** A typed array is the list of its elements. *)
Abbreviation TypedArray := (list Z).

(** [a[i]]: [undefined] outside the array. *)
Definition get (a : TypedArray) (i : value) : value :=
  match i with
  | Int z =>
      if 0 <=? z
      then match a !! Z.to_nat z with
           | Some x => Int x
           | None => Undefined
           end
      else Undefined
  | NaN | Undefined => Undefined
  end.

(** [a[i] = v]: a write outside the array is dropped, nothing is raised. *)
Definition set (T : DataType) (a : TypedArray) (i : Z) (v : value) : TypedArray :=
  if 0 <=? i then <[Z.to_nat i := ToUint T v]> a else a.

(** [new T(array)]: a copy, each element converted. *)
Definition from (T : DataType) (xs : list Z) : TypedArray :=
  (fun z => ToUint T (Int z)) <$> xs.

End JS.

Arguments JS.get : simpl never.
Arguments JS.set : simpl never.

(** ** Errors *)

Inductive channel : Type := Red | Green | Blue.

(** One constructor for each [throw] of the class, and for the two
    exceptions the runtime raises under it. *)
Inductive error : Type :=
| FirstDescriptorMismatch
| SecondDescriptorMismatch
| ThirdDescriptorMismatch
| UnsupportedBitsPerEntry
| DataConflict (c : channel)
| MissingData (c : channel)
| WrongNumberOfEntries (c : channel)
| IndirectSegmentNotSupported
| UnexpectedSegmentType
| TableSizeMismatch
| TypeError
| RangeError.

Inductive result (A : Type) : Type :=
| Ok (a : A)
| Err (e : error).
Arguments Ok {A} a.
Arguments Err {A} e.

#[export] Instance result_ret : MRet result := fun A a => Ok a.
#[export] Instance result_bind : MBind result := fun A B f m =>
  match m with
  | Ok a => f a
  | Err e => Err e
  end.

(** [new T(n)]: [n] zeroes; a negative length is a [RangeError].  The
    limit that an engine puts on the size of an array is left out. *)
Definition new_TypedArray (n : Z) : result JS.TypedArray :=
  if n <? 0 then Err RangeError else Ok (replicate (Z.to_nat n) 0).

(** ** The segmented-data decoder *)

Record decoder : Type := {
  lut : JS.TypedArray;
  offset : JS.value
}.

(** [for (let j = offset; j < offset + length; j++) lut[j] = value],
    entered with [count] iterations left. *)
Fixpoint discrete_loop (T : JS.DataType) (count : nat) (j : Z)
    (value : JS.value) (lut : JS.TypedArray) : JS.TypedArray :=
  match count with
  | O => lut
  | S count' =>
      discrete_loop T count' (j + 1) value (JS.set T lut j value)
  end.

(** [for (let j = offset; j < offset + length; j++)
       lut[j] = Math.round(lut[j - 1] + step)] *)
Fixpoint linear_loop (T : JS.DataType) (count : nat) (j : Z)
    (step : JS.number) (lut : JS.TypedArray) : JS.TypedArray :=
  match count with
  | O => lut
  | S count' =>
      linear_loop T count' (j + 1) step
        (JS.set T lut j
           (JS.round (JS.add (JS.ToNumber (JS.get lut (JS.Int (j - 1)))) step)))
  end.

(** The first [j] and the number of iterations of a loop
    [for (j = offset; j < offset + length; j++)]: none when either bound is
    [NaN], since a comparison with [NaN] is false. *)
Definition iterations (offset length : JS.value) : Z * nat :=
  match offset, length with
  | JS.Int o, JS.Int l => (o, Z.to_nat l)
  | _, _ => (0, O)
  end.

(** One iteration of the outer loop: the opcode and the two tokens after
    it, [undefined] where the program has ended. *)
Definition segment (T : JS.DataType) (opcode : Z) (operand1 operand2 : JS.value)
    (st : decoder) : result decoder :=
  if opcode =? 0 then
    let length := operand1 in
    let value := operand2 in
    let '(j, count) := iterations (offset st) length in
    Ok {| lut := discrete_loop T count j value (lut st);
          offset := JS.iadd (offset st) length |}
  else if opcode =? 1 then
    let length := operand1 in
    let endpoint := operand2 in
    let startpoint := JS.get (lut st) (JS.isub (offset st) (JS.Int 1)) in
    let step :=
      JS.div (JS.sub (JS.ToNumber endpoint) (JS.ToNumber startpoint))
             (JS.ToNumber length) in
    let '(j, count) := iterations (offset st) length in
    Ok {| lut := linear_loop T count j step (lut st);
          offset := JS.iadd (offset st) length |}
  else if opcode =? 2 then Err IndirectSegmentNotSupported
  else Err UnexpectedSegmentType.

(** [segmentedData[i]] for the token at the head of [tokens]. *)
Definition token (tokens : list Z) : JS.value :=
  match tokens with
  | z :: _ => JS.Int z
  | [] => JS.Undefined
  end.

(** [for (let i = 0; i < segmentedData.length; i++)].  The read cursor [i]
    is kept as the part of the program from [i] on.  An iteration reads the
    opcode at [i], its operands at [i + 1] and [i + 2], and the loop header
    moves on to [i + 3]; the loop ends when that is at or past the end. *)
Fixpoint expand_loop (T : JS.DataType) (segmentedData : list Z)
    (st : decoder) : result decoder :=
  match segmentedData with
  | [] => Ok st
  | opcode :: operands =>
      match segment T opcode (token operands) (token (tail operands)) st with
      | Err e => Err e
      | Ok st' =>
          match operands with
          | _ :: _ :: rest => expand_loop T rest st'
          | _ => Ok st'
          end
      end
  end.

(** ** External collaborators *)

(** Modelled from the spec: [rescale] of [src/utils.js], which is imported by
    [color.js] and is not among the sources: "standard linear interpolation
    [outMin + (value - inMin) * (outMax - outMin) / (inMax - inMin)]". *)
Definition rescale (value inMin inMax outMin outMax : JS.number) : JS.number :=
  JS.add outMin
    (JS.div (JS.mul (JS.sub value inMin) (JS.sub outMax outMin))
            (JS.sub inMax inMin)).

(** ** The class *)

(** A descriptor is the array [[numberOfEntries, firstValueMapped,
    bitsPerEntry]]. *)
Definition descriptor : Type := Z * Z * Z.

Definition at0 (d : descriptor) : Z := d.1.1.
Definition at1 (d : descriptor) : Z := d.1.2.
Definition at2 (d : descriptor) : Z := d.2.

(** An RGB triplet of the materialized table. *)
Definition triplet : Type := JS.value * JS.value * JS.value.

(** The argument of the constructor.  A data field that is [null] or
    [undefined] is [None]. *)
Module Options.
Record t : Type := {
  uid : string;
  redDescriptor : descriptor;
  greenDescriptor : descriptor;
  blueDescriptor : descriptor;
  redData : option (list Z);
  greenData : option (list Z);
  blueData : option (list Z);
  redSegmentedData : option (list Z);
  greenSegmentedData : option (list Z);
  blueSegmentedData : option (list Z)
}.
End Options.

Module PaletteColorLookupTable.

(** The object [this[_attrs]]. *)
Record attrs : Type := {
  uid : string;
  numberOfEntries : Z;
  firstValueMapped : Z;
  bitsPerEntry : Z;
  redSegmentedData : option (list Z);
  redData : option (list Z);
  greenSegmentedData : option (list Z);
  greenData : option (list Z);
  blueSegmentedData : option (list Z);
  blueData : option (list Z);
  DataType : JS.DataType;
  data : option (list triplet)
}.

(** [this[_attrs].data = table] *)
Definition set_data (this : attrs) (table : option (list triplet)) : attrs :=
  {| uid := uid this;
     numberOfEntries := numberOfEntries this;
     firstValueMapped := firstValueMapped this;
     bitsPerEntry := bitsPerEntry this;
     redSegmentedData := redSegmentedData this;
     redData := redData this;
     greenSegmentedData := greenSegmentedData this;
     greenData := greenData this;
     blueSegmentedData := blueSegmentedData this;
     blueData := blueData this;
     DataType := DataType this;
     data := table |}.

(** [if (cond) throw new Error(...)] *)
Definition throw_if (cond : bool) (e : error) : result unit :=
  if cond then Err e else Ok tt.

(** [data != null] *)
Definition present {A} (data : option A) : bool :=
  match data with Some _ => true | None => false end.

(** [if (data) { if (data.length !== numberOfEntries) throw ... }] *)
Definition check_length (data : option (list Z)) (numberOfEntries : Z)
    (c : channel) : result unit :=
  match data with
  | Some d =>
      throw_if (negb (Z.of_nat (length d) =? numberOfEntries))
               (WrongNumberOfEntries c)
  | None => Ok tt
  end.

Definition constructor (o : Options.t) : result attrs :=
  let red := Options.redDescriptor o in
  let green := Options.greenDescriptor o in
  let blue := Options.blueDescriptor o in
  (* Number of entries in the LUT data *)
  let firstDescriptorValues := [at0 red; at0 green; at0 blue] in
  _ ← throw_if (negb (JS.Set_size firstDescriptorValues =? 1)%nat)
        FirstDescriptorMismatch;
  let n := at0 red in
  let numberOfEntries := if n =? 0 then 2 ^ 16 else n in
  (* Pixel value mapped to the first entry in the LUT data *)
  let secondDescriptorValues := [at1 red; at1 green; at1 blue] in
  _ ← throw_if (negb (JS.Set_size secondDescriptorValues =? 1)%nat)
        SecondDescriptorMismatch;
  let firstValueMapped := at1 red in
  (* Number of bits for each entry in the LUT Data *)
  let thirdDescriptorValues := [at2 red; at2 green; at2 blue] in
  _ ← throw_if (negb (JS.Set_size thirdDescriptorValues =? 1)%nat)
        ThirdDescriptorMismatch;
  let bitsPerEntry := at2 red in
  _ ← throw_if (negb ((bitsPerEntry =? 8) || (bitsPerEntry =? 16)))
        UnsupportedBitsPerEntry;
  _ ← (if present (Options.redSegmentedData o) && present (Options.redData o)
       then Err (DataConflict Red)
       else if negb (present (Options.redSegmentedData o))
               && negb (present (Options.redData o))
       then Err (MissingData Red)
       else Ok tt);
  _ ← check_length (Options.redData o) numberOfEntries Red;
  _ ← (if present (Options.greenSegmentedData o) && present (Options.greenData o)
       then Err (DataConflict Green)
       else if negb (present (Options.greenSegmentedData o))
               && negb (present (Options.greenData o))
       then Err (MissingData Green)
       else Ok tt);
  _ ← check_length (Options.greenData o) numberOfEntries Green;
  _ ← (if present (Options.blueSegmentedData o) && present (Options.blueData o)
       then Err (DataConflict Blue)
       else if present (Options.blueSegmentedData o)
               && present (Options.blueData o)
       then Err (MissingData Blue)
       else Ok tt);
  _ ← check_length (Options.blueData o) numberOfEntries Blue;
  Ok {| uid := Options.uid o;
        numberOfEntries := numberOfEntries;
        firstValueMapped := firstValueMapped;
        bitsPerEntry := bitsPerEntry;
        redSegmentedData := Options.redSegmentedData o;
        redData := Options.redData o;
        greenSegmentedData := Options.greenSegmentedData o;
        greenData := Options.greenData o;
        blueSegmentedData := Options.blueSegmentedData o;
        blueData := Options.blueData o;
        DataType := if bitsPerEntry =? 8 then JS.Uint8Array else JS.Uint16Array;
        (* Will be used to cache created colormap for repeated access *)
        data := None |}.

(** [_expandSegmentedLUTData (segmentedData)].  The method reads two fields
    of [this[_attrs]], [DataType] and [numberOfEntries], which are its first
    two arguments here.  [segmentedData.length] of a missing program is a
    [TypeError]. *)
Definition _expandSegmentedLUTData (DataType : JS.DataType)
    (numberOfEntries : Z) (segmentedData : option (list Z))
    : result JS.TypedArray :=
  lut0 ← new_TypedArray numberOfEntries;
  match segmentedData with
  | None => Err TypeError
  | Some program =>
      st ← expand_loop DataType program {| lut := lut0; offset := JS.Int 0 |};
      Ok (lut st)
  end.

(** [data ? new DataType(data) : this._expandSegmentedLUTData(segmented)];
    an array is truthy, also when it is empty. *)
Definition channelLUT (this : attrs) (explicit segmented : option (list Z))
    : result JS.TypedArray :=
  match explicit with
  | Some d => Ok (JS.from (DataType this) d)
  | None =>
      _expandSegmentedLUTData (DataType this) (numberOfEntries this) segmented
  end.

(** [Math.round(rescale(lut[j], 0, maxInput, 0, maxOutput))] *)
Definition resample (lut : JS.TypedArray) (j maxInput maxOutput : Z) : JS.value :=
  JS.round (rescale (JS.ToNumber (JS.get lut (JS.Int j)))
                    (JS.ToNumber (JS.Int 0)) (JS.ToNumber (JS.Int maxInput))
                    (JS.ToNumber (JS.Int 0)) (JS.ToNumber (JS.Int maxOutput))).

(** The body of the getter [data] under [if (this[_attrs].data == null)]:
    the table that is assigned to the cache.  The loops
    [for (let i = 0; i < k; i++) table[i] = f(i)] over a [new Array(k)] are
    maps over [0, ..., k - 1]; where they are reached the three typed
    arrays exist, so that [k] is not negative. *)
Definition materialize (this : attrs) : result (list triplet) :=
  redLUT ← channelLUT this (redData this) (redSegmentedData this);
  greenLUT ← channelLUT this (greenData this) (greenSegmentedData this);
  blueLUT ← channelLUT this (blueData this) (blueSegmentedData this);
  let uniqueNumberOfEntries :=
    [length redLUT; length blueLUT; length blueLUT] in
  _ ← throw_if (1 <? JS.Set_size uniqueNumberOfEntries)%nat TableSizeMismatch;
  if bitsPerEntry this =? 16 then
    let maxInput := 2 ^ 16 - 1 in
    let maxOutput := 2 ^ 8 - 1 in
    let steps := 2 ^ 16 / 2 ^ 8 in
    Ok ((fun i =>
           let j := i * steps in
           (resample redLUT j maxInput maxOutput,
            resample greenLUT j maxInput maxOutput,
            resample blueLUT j maxInput maxOutput))
        <$> seqZ 0 steps)
  else
    Ok ((fun i =>
           (JS.get redLUT (JS.Int i),
            JS.get greenLUT (JS.Int i),
            JS.get blueLUT (JS.Int i)))
        <$> seqZ 0 (numberOfEntries this)).

(** The getter [data]: the table it returns, or the exception it raises,
    and the object afterwards.  An exception leaves the cache as it was. *)
Definition get_data (this : attrs) : result (list triplet) * attrs :=
  match data this with
  | Some table => (Ok table, this)
  | None =>
      match materialize this with
      | Ok table => (Ok table, set_data this (Some table))
      | Err e => (Err e, this)
      end
  end.

End PaletteColorLookupTable.

(** [_buildPaletteColorLookupTable], with the identifier that
    [generateUID()] of [src/utils.js] returns as an argument. *)
Definition _buildPaletteColorLookupTable (generatedUID : string)
    (data : list (Z * Z * Z)) (firstValueMapped bitsPerEntry : Z)
    : result PaletteColorLookupTable.attrs :=
  let numberOfEntries := Z.of_nat (length data) in
  let Type_ := if bitsPerEntry =? 8 then JS.Uint8Array else JS.Uint16Array in
  let redData := (fun c => JS.ToUint Type_ (JS.Int c.1.1)) <$> data in
  let greenData := (fun c => JS.ToUint Type_ (JS.Int c.1.2)) <$> data in
  let blueData := (fun c => JS.ToUint Type_ (JS.Int c.2)) <$> data in
  let descriptor := (numberOfEntries, firstValueMapped, bitsPerEntry) in
  PaletteColorLookupTable.constructor
    {| Options.uid := generatedUID;
       Options.redDescriptor := descriptor;
       Options.greenDescriptor := descriptor;
       Options.blueDescriptor := descriptor;
       Options.redData := Some redData;
       Options.greenData := Some greenData;
       Options.blueData := Some blueData;
       Options.redSegmentedData := None;
       Options.greenSegmentedData := None;
       Options.blueSegmentedData := None |}.

Import PaletteColorLookupTable.

(** ** Example inputs *)

Definition table_options (descriptor : Z * Z * Z)
    (red green blue : option (list Z) * option (list Z)) : Options.t :=
  {| Options.uid := "1.2.826.0.1.3680043.8.498.1";
     Options.redDescriptor := descriptor;
     Options.greenDescriptor := descriptor;
     Options.blueDescriptor := descriptor;
     Options.redData := red.1;
     Options.greenData := green.1;
     Options.blueData := blue.1;
     Options.redSegmentedData := red.2;
     Options.greenSegmentedData := green.2;
     Options.blueSegmentedData := blue.2 |}.

Definition explicit (d : list Z) : option (list Z) * option (list Z) :=
  (Some d, None).
Definition segmented (program : list Z) : option (list Z) * option (list Z) :=
  (None, Some program).
Definition neither : option (list Z) * option (list Z) := (None, None).

(** Two entries of 8 bits; blue has neither kind of data. *)
Definition blue_missing : Options.t :=
  table_options (2, 0, 8) (explicit [0; 255]) (explicit [0; 255]) neither.

Definition red_missing : Options.t :=
  table_options (2, 0, 8) neither (explicit [0; 255]) (explicit [0; 255]).

Definition green_missing : Options.t :=
  table_options (2, 0, 8) (explicit [0; 255]) neither (explicit [0; 255]).

(** Two entries of 8 bits; channel [c] has both kinds of data. *)
Definition both (c : channel) : Options.t :=
  let conflict := (Some [0; 255], Some [0; 2; 255]) in
  let plain := explicit [0; 255] in
  match c with
  | Red => table_options (2, 0, 8) conflict plain plain
  | Green => table_options (2, 0, 8) plain conflict plain
  | Blue => table_options (2, 0, 8) plain plain conflict
  end.

(** Two entries of 16 bits: red and green explicit, blue a Discrete
    segment. *)
Definition sixteen_bits_two_entries : Options.t :=
  table_options (2, 0, 16)
    (explicit [65535; 300]) (explicit [1000; 5]) (segmented [0; 2; 128]).

(** Four entries of 8 bits: red explicit, green a Discrete segment followed
    by a Linear one, blue a Discrete segment. *)
Definition eight_bits_four_entries : Options.t :=
  table_options (4, 0, 8)
    (explicit [1; 2; 3; 4]) (segmented [0; 1; 10; 1; 3; 20])
    (segmented [0; 4; 7]).

(** ** Vocabulary of the properties *)

(** The program that consists of the segments [segs], three tokens each. *)
Fixpoint encode (segs : list (Z * Z * Z)) : list Z :=
  match segs with
  | [] => []
  | (opcode, operand1, operand2) :: segs' =>
      opcode :: operand1 :: operand2 :: encode segs'
  end.


(** The opcodes that the decoder expands: Discrete and Linear. *)
Definition supported (opcode : Z) : Prop := opcode = 0 \/ opcode = 1.

#[export] Instance supported_dec (opcode : Z) : Decision (supported opcode).
Proof. unfold supported. apply _. Defined.

(** The sample [v] of a 16-bit table rescaled linearly from [[0, 65535]]
    to [[0, 255]] and rounded to the nearest integer; a sample that the
    table does not have gives [NaN]. *)
Definition rescaled (sample : JS.value) : JS.value :=
  match sample with
  | JS.Int v => JS.Int (Qfloor (inject_Z v * 255 / 65535 + (1 # 2)))
  | JS.NaN | JS.Undefined => JS.NaN
  end.

(** Every slot of the array holds an unsigned integer of [bits T] bits. *)
Definition in_width (T : JS.DataType) (lut : JS.TypedArray) : Prop :=
  Forall (fun x => 0 <= x < 2 ^ JS.bits T) lut.

(** A 16-bit word: the range of the tokens of segmented data and of the
    entries of a table.  On words the quotient and the sum of a Linear
    segment are those of the doubles of the code, rounded alike. *)
Definition word16 (z : Z) : Prop := 0 <= z < 2 ^ 16.

(** An integer of [[0, 255]]. *)
Definition byte (v : JS.value) : Prop :=
  exists z, v = JS.Int z /\ 0 <= z <= 255.

(** ** Colour maps *)

(** A colour of a colour map, the array [[r, g, b]]. *)
Abbreviation color := (Z * Z * Z)%type.

(** The frozen object [ColorMaps]: each key holds its own name. *)
Definition ColorMaps : list string :=
  ["VIRIDIS"; "INFERNO"; "MAGMA"; "GRAY"; "BLUE_RED"; "PHASE"; "PORTLAND";
   "HOT"]%string.

(** What [createColorMap] throws: its own error for an unknown name, or
    whatever the package [colormap] throws. *)
Inductive thrown : Type :=
| UnknownColormap (name : string)
| ColormapError.

Inductive outcome (A : Type) : Type :=
| Returns (a : A)
| Throws (t : thrown).
Arguments Returns {A} a.
Arguments Throws {A} t.

(** The value of [lut[name]]: the pair [[internalName, reverse]] of an own
    key of the object literal, or a member that the literal inherits from
    [Object.prototype], which is not [undefined] either and has no
    elements [0] and [1]. *)
Inductive lut_value : Type :=
| Params (internalName : string) (reverse : bool)
| Inherited.

(** The object literal [lut] of [createColorMap]. *)
Definition lut_keys : list (string * (string * bool)) :=
  [("INFERNO", ("inferno", false));
   ("MAGMA", ("magma", false));
   ("VIRIDIS", ("viridis", false));
   ("GRAY", ("greys", false));
   ("BLUE_RED", ("RdBu", false));
   ("PHASE", ("phase", true));
   ("PORTLAND", ("portland", false));
   ("HOT", ("HOT", false))]%string.

(** The names of the members of [Object.prototype]. *)
Definition Object_prototype : list string :=
  ["constructor"; "hasOwnProperty"; "isPrototypeOf"; "propertyIsEnumerable";
   "toLocaleString"; "toString"; "valueOf"; "__proto__";
   "__defineGetter__"; "__defineSetter__"; "__lookupGetter__";
   "__lookupSetter__"]%string.

Fixpoint own_key (keys : list (string * (string * bool))) (name : string)
    : option (string * bool) :=
  match keys with
  | [] => None
  | (key, params) :: keys' =>
      if String.eqb key name then Some params else own_key keys' name
  end.

(** [lut[name]]; [None] is [undefined]. *)
Definition lut_get (name : string) : option lut_value :=
  match own_key lut_keys name with
  | Some (internalName, reverse) => Some (Params internalName reverse)
  | None =>
      if existsb (String.eqb name) Object_prototype then Some Inherited
      else None
  end.

Section createColorMap.

(** The package [colormap], which is imported and is not among the
    sources: [colormap({ colormap: internalName, nshades: bins, format:
    'rgb' })], with [None] for an [undefined] name; it returns an array of
    colours or throws ([None]). *)
Context (colormap : option string -> Z -> option (list color)).

Definition createColorMap (name : string) (bins : Z) : outcome (list color) :=
  match lut_get name with
  | None => Throws (UnknownColormap name)
  | Some params =>
      let internalName :=
        match params with Params n _ => Some n | Inherited => None end in
      let reverse :=
        match params with Params _ r => r | Inherited => false end in
      match colormap internalName bins with
      | None => Throws ColormapError
      | Some colors => if reverse then Returns (rev colors) else Returns colors
      end
  end.

End createColorMap.

(** ** Vocabulary of the further properties *)

(** The total length that the segments [segs] announce. *)
Definition total_length (segs : list (Z * Z * Z)) : Z :=
  foldr (fun s acc => s.1.2 + acc) 0 segs.

(** A complete Discrete or Linear segment with a length that is not
    negative. *)
Definition plain_segment (s : Z * Z * Z) : Prop :=
  supported s.1.1 /\ 0 <= s.1.2.

(** The options that the constructor accepts: the descriptors agree field
    by field, the entries have 8 or 16 bits, red and green carry exactly
    one kind of data and blue not both, and explicit data have
    [numberOfEntries] elements, 65536 for a descriptor value of 0. *)
Definition accepted (o : Options.t) : Prop :=
  let red := Options.redDescriptor o in
  let green := Options.greenDescriptor o in
  let blue := Options.blueDescriptor o in
  let n := if at0 red =? 0 then 65536 else at0 red in
  (at0 red = at0 green /\ at0 green = at0 blue) /\
  (at1 red = at1 green /\ at1 green = at1 blue) /\
  (at2 red = at2 green /\ at2 green = at2 blue) /\
  (at2 red = 8 \/ at2 red = 16) /\
  present (Options.redData o) = negb (present (Options.redSegmentedData o)) /\
  present (Options.greenData o) = negb (present (Options.greenSegmentedData o)) /\
  present (Options.blueData o) && present (Options.blueSegmentedData o) = false /\
  (forall d, Options.redData o = Some d -> Z.of_nat (length d) = n) /\
  (forall d, Options.greenData o = Some d -> Z.of_nat (length d) = n) /\
  (forall d, Options.blueData o = Some d -> Z.of_nat (length d) = n).

(** The object that a successful construction from [o] returns. *)
Definition constructed (o : Options.t) : attrs :=
  {| uid := Options.uid o;
     numberOfEntries :=
       if at0 (Options.redDescriptor o) =? 0 then 65536
       else at0 (Options.redDescriptor o);
     firstValueMapped := at1 (Options.redDescriptor o);
     bitsPerEntry := at2 (Options.redDescriptor o);
     redSegmentedData := Options.redSegmentedData o;
     redData := Options.redData o;
     greenSegmentedData := Options.greenSegmentedData o;
     greenData := Options.greenData o;
     blueSegmentedData := Options.blueSegmentedData o;
     blueData := Options.blueData o;
     DataType :=
       if at2 (Options.redDescriptor o) =? 8 then JS.Uint8Array
       else JS.Uint16Array;
     data := None |}.


(** The colour [c] as a triplet of a table of 8-bit entries. *)
Definition stored_color (c : color) : triplet :=
  (JS.Int (c.1.1 mod 256), JS.Int (c.1.2 mod 256), JS.Int (c.2 mod 256)).

(** * Properties *)

(** ** Typed arrays *)

Section typed_arrays.

Context (T : JS.DataType).
Implicit Types (a : JS.TypedArray) (i j : Z) (v : JS.value).

Lemma ToUint_range v : 0 <= JS.ToUint T v < 2 ^ JS.bits T.
Proof.
  destruct v as [| |z]; simpl; [destruct T; simpl; lia ..|].
  apply Z.mod_pos_bound. destruct T; simpl; lia.
Qed.

Lemma ToUint_fits z : 0 <= z < 2 ^ JS.bits T -> JS.ToUint T (JS.Int z) = z.
Proof. intros H. simpl. by apply Z.mod_small. Qed.

Lemma set_length a i v : length (JS.set T a i v) = length a.
Proof. unfold JS.set. destruct (0 <=? i); [apply length_insert | done]. Qed.

Lemma get_set_eq a i v :
  0 <= i < Z.of_nat (length a) ->
  JS.get (JS.set T a i v) (JS.Int i) = JS.Int (JS.ToUint T v).
Proof.
  intros [Hi Hlt]. unfold JS.get, JS.set.
  destruct (Z.leb_spec 0 i); [|lia].
  rewrite list_lookup_insert_eq; [done | lia].
Qed.

Lemma get_set_ne a i j v :
  i <> j -> JS.get (JS.set T a i v) (JS.Int j) = JS.get a (JS.Int j).
Proof.
  intros Hne. unfold JS.get, JS.set.
  destruct (Z.leb_spec 0 j) as [Hj|]; [|done].
  destruct (Z.leb_spec 0 i) as [Hi|]; [|done].
  rewrite list_lookup_insert_ne; [done | lia].
Qed.

Lemma get_outside a i :
  ~ (0 <= i < Z.of_nat (length a)) -> JS.get a (JS.Int i) = JS.Undefined.
Proof.
  intros Hout. unfold JS.get.
  destruct (Z.leb_spec 0 i) as [Hi|]; [|done].
  rewrite lookup_ge_None_2; [done | lia].
Qed.

Lemma get_inside a i :
  0 <= i < Z.of_nat (length a) -> exists x, JS.get a (JS.Int i) = JS.Int x.
Proof.
  intros [Hi Hlt]. unfold JS.get. destruct (Z.leb_spec 0 i); [|lia].
  destruct (lookup_lt_is_Some_2 a (Z.to_nat i)) as [x ->]; [lia | by exists x].
Qed.


End typed_arrays.

(** ** The two inner loops *)

Section loops.

Context (T : JS.DataType).
Implicit Types (lut : JS.TypedArray) (count : nat) (j k : Z).

Lemma discrete_loop_length count j value lut :
  length (discrete_loop T count j value lut) = length lut.
Proof.
  revert j lut. induction count as [|count IH]; intros j lut; cbn [linear_loop discrete_loop]; [done|].
  by rewrite IH, set_length.
Qed.

Lemma linear_loop_length count j step lut :
  length (linear_loop T count j step lut) = length lut.
Proof.
  revert j lut. induction count as [|count IH]; intros j lut; cbn [linear_loop discrete_loop]; [done|].
  by rewrite IH, set_length.
Qed.

(** A Discrete loop fills the slots of [[j, j + count)] that the array has
    and leaves every other slot alone; the part of the run that lies beyond
    the array is dropped. *)
Lemma discrete_loop_get count j value lut k :
  JS.get (discrete_loop T count j value lut) (JS.Int k) =
  if decide (j <= k < j + Z.of_nat count /\ 0 <= k < Z.of_nat (length lut))
  then JS.Int (JS.ToUint T value)
  else JS.get lut (JS.Int k).
Proof.
  revert j lut. induction count as [|count IH]; intros j lut;
    cbn [discrete_loop].
  - rewrite decide_False by lia. done.
  - rewrite IH, set_length.
    destruct (decide (k = j)) as [->|Hne].
    + rewrite (decide_False (P := _ /\ _)) by lia.
      destruct (decide (0 <= j < Z.of_nat (length lut))).
      * rewrite decide_True by lia. by apply get_set_eq.
      * rewrite decide_False by lia.
        rewrite !get_outside; [done | done | by rewrite set_length].
    + rewrite get_set_ne by done.
      destruct (decide (j + 1 <= k < j + 1 + Z.of_nat count /\ _)).
      * rewrite decide_True by lia. done.
      * rewrite decide_False by lia. done.
Qed.

(** The slots outside [[j, j + count)] keep their value. *)
Lemma linear_loop_outside count j step lut k :
  ~ (j <= k < j + Z.of_nat count) ->
  JS.get (linear_loop T count j step lut) (JS.Int k) = JS.get lut (JS.Int k).
Proof.
  revert j lut. induction count as [|count IH]; intros j lut Hout; cbn [linear_loop]; [done|].
  rewrite IH by lia. apply get_set_ne. lia.
Qed.

(** Each slot of [[j, j + count)] that the array has holds the rounded sum
    of its left neighbour, as the loop left it, and the step. *)
Lemma linear_loop_inside count j step lut k :
  0 <= j ->
  j <= k < j + Z.of_nat count ->
  k < Z.of_nat (length lut) ->
  let lut' := linear_loop T count j step lut in
  JS.get lut' (JS.Int k) =
  JS.Int (JS.ToUint T
    (JS.round (JS.add (JS.ToNumber (JS.get lut' (JS.Int (k - 1)))) step))).
Proof.
  revert j lut. induction count as [|count IH]; intros j lut Hj Hk Hlen; cbn [linear_loop]; [lia|].
  destruct (Z.eq_dec k j) as [->|Hne].
  - rewrite !linear_loop_outside by lia.
    rewrite get_set_eq by lia.
    by rewrite get_set_ne by lia.
  - apply IH; [lia | lia | by rewrite set_length].
Qed.

End loops.

(** ** Segments and programs *)

(** Induction over a program, one segment at a time; the last segment may
    lack one or both operands. *)
Lemma program_ind (P : list Z -> Prop) :
  P [] ->
  (forall opcode, P [opcode]) ->
  (forall opcode operand1, P [opcode; operand1]) ->
  (forall opcode operand1 operand2 rest,
      P rest -> P (opcode :: operand1 :: operand2 :: rest)) ->
  forall program, P program.
Proof.
  intros Hnil H1 H2 H3.
  assert (Hall : forall n program, (length program < n)%nat -> P program).
  { induction n as [|n IH]; intros program Hlen; [lia|].
    destruct program as [|opcode [|operand1 [|operand2 rest]]]; auto.
    apply H3, IH. simpl in Hlen. lia. }
  intros program. apply (Hall (S (length program))). lia.
Qed.

Section decoding.

Context (T : JS.DataType).

(** A segment with a supported opcode always completes, whatever its
    operands and wherever the write cursor is, and leaves the size of the
    array as it was. *)
Lemma segment_supported opcode operand1 operand2 st :
  supported opcode ->
  exists st', segment T opcode operand1 operand2 st = Ok st' /\
              length (lut st') = length (lut st).
Proof.
  intros [-> | ->]; unfold segment; cbn [Z.eqb];
    destruct (iterations (offset st) operand1) as [j count];
    (eexists; split; [reflexivity|]); cbn [lut].
  - apply discrete_loop_length.
  - apply linear_loop_length.
Qed.

Lemma segment_unsupported opcode operand1 operand2 st :
  ~ supported opcode ->
  segment T opcode operand1 operand2 st =
  Err (if opcode =? 2 then IndirectSegmentNotSupported
       else UnexpectedSegmentType).
Proof.
  intros Hop. unfold segment, supported in *.
  destruct (Z.eqb_spec opcode 0); [lia|].
  destruct (Z.eqb_spec opcode 1); [lia|].
  by destruct (opcode =? 2).
Qed.

(** The only exceptions of a segment are the two that the decoder throws
    itself. *)
Lemma segment_cases opcode operand1 operand2 st :
  match segment T opcode operand1 operand2 st with
  | Ok st' => length (lut st') = length (lut st)
  | Err e => e = IndirectSegmentNotSupported \/ e = UnexpectedSegmentType
  end.
Proof.
  destruct (decide (supported opcode)) as [Hop|Hop].
  - by destruct (segment_supported opcode operand1 operand2 st Hop) as (st' & -> & ?).
  - rewrite segment_unsupported by done. destruct (opcode =? 2); auto.
Qed.

Lemma expand_loop_cases program st :
  match expand_loop T program st with
  | Ok st' => length (lut st') = length (lut st)
  | Err e => e = IndirectSegmentNotSupported \/ e = UnexpectedSegmentType
  end.
Proof.
  revert st. induction program as [|op|op o1|op o1 o2 rest IH] using program_ind;
    intros st; cbn [expand_loop]; [done|..].
  - pose proof (segment_cases op (token []) (token (tail [])) st) as H.
    by destruct (segment _ _ _ _ _).
  - pose proof (segment_cases op (token [o1]) (token (tail [o1])) st) as H.
    by destruct (segment _ _ _ _ _).
  - pose proof (segment_cases op (token (o1 :: o2 :: rest))
                  (token (tail (o1 :: o2 :: rest))) st) as H.
    destruct (segment _ _ _ _ _) as [st1|e]; [|done].
    specialize (IH st1). destruct (expand_loop _ _ _); [congruence | done].
Qed.


(** The decoder reaches the opcode that follows complete segments with
    supported opcodes, and throws there if that opcode is not supported. *)
Lemma expand_loop_unsupported segs opcode rest st :
  Forall (fun s => supported s.1.1) segs ->
  ~ supported opcode ->
  expand_loop T (encode segs ++ opcode :: rest) st =
  Err (if opcode =? 2 then IndirectSegmentNotSupported
       else UnexpectedSegmentType).
Proof.
  intros Hsegs Hop. revert st.
  induction Hsegs as [|[[op o1] o2] segs Hs _ IH]; intros st.
  - cbn [encode app expand_loop]. by rewrite segment_unsupported.
  - cbn [encode app expand_loop].
    destruct (segment_supported op (token (o1 :: o2 :: encode segs ++ opcode :: rest))
                (token (tail (o1 :: o2 :: encode segs ++ opcode :: rest))) st Hs)
      as (st1 & -> & _).
    apply IH.
Qed.

End decoding.

(** ** The decoder *)

(** Decides [Forall supported] on the opcodes of a given program. *)
Ltac supported_opcodes :=
  repeat (apply Forall_cons_2; [unfold supported; simpl; lia|]);
  apply Forall_nil_2.

Lemma new_TypedArray_length n a :
  new_TypedArray n = Ok a -> Z.of_nat (length a) = n.
Proof.
  unfold new_TypedArray. destruct (Z.ltb_spec n 0); [done|].
  intros [= <-]. rewrite length_replicate. lia.
Qed.

Lemma new_TypedArray_nonneg n :
  0 <= n -> new_TypedArray n = Ok (replicate (Z.to_nat n) 0).
Proof. intros Hn. unfold new_TypedArray. by destruct (Z.ltb_spec n 0); [lia|]. Qed.

Lemma Qeq_bool_inject_Z_pos z : 0 < z -> Qeq_bool (inject_Z z) 0 = false.
Proof.
  intros Hz. destruct (Qeq_bool (inject_Z z) 0) eqn:E; [|done].
  apply Qeq_bool_eq in E. unfold Qeq in E. simpl in E. lia.
Qed.

(** C2, as the code has it: the program [[0,1,10, 1,3,20]] with
    [numberOfEntries = 4] expands to [[10, 13, 16, 19]], for either width
    of the entries.  Each step adds [10/3] to the value stored before and
    rounds: [round(10 + 3.33) = 13], [round(13 + 3.33) = 16],
    [round(16 + 3.33) = 19]. *)
Theorem expand_discrete_then_linear (T : JS.DataType) :
  _expandSegmentedLUTData T 4 (Some [0; 1; 10; 1; 3; 20])
  = Ok [10; 13; 16; 19].
Proof. by destruct T. Qed.

(** C2, as the specification states it, fails: the output is not
    [[10, 13, 17, 20]]. *)
Lemma expand_discrete_then_linear_not_17_20 :
  _expandSegmentedLUTData JS.Uint8Array 4 (Some [0; 1; 10; 1; 3; 20])
    <> Ok [10; 13; 17; 20] /\
  _expandSegmentedLUTData JS.Uint16Array 4 (Some [0; 1; 10; 1; 3; 20])
    <> Ok [10; 13; 17; 20].
Proof. split; vm_compute; discriminate. Qed.

(** C3, as the specification states it, fails: the slot does not always
    hold [round(output[j - 1] + step)].  In an array of 8-bit entries the
    program [[0,1,0, 1,2,255]] has the step [255 / 2]; slot 1 holds
    [round(0 + 127.5) = 128], and for slot 2 the decoder rounds
    [128 + 127.5] to 256, which the slot stores as 0. *)
Lemma linear_segment_stores_wrapped :
  _expandSegmentedLUTData JS.Uint8Array 3 (Some [0; 1; 0; 1; 2; 255])
  = Ok [0; 128; 0] /\
  segment JS.Uint8Array 1 (JS.Int 2) (JS.Int 255)
    {| lut := [0; 0; 0]; offset := JS.Int 1 |}
  = Ok {| lut := [0; 128; 0]; offset := JS.Int 3 |} /\
  JS.get [0; 128; 0] (JS.Int 2) = JS.Int 0 /\
  JS.round
    (JS.add (JS.ToNumber (JS.get [0; 128; 0] (JS.Int 1)))
       (JS.div (JS.sub (JS.ToNumber (JS.Int 255))
                       (JS.ToNumber (JS.get [0; 0; 0] (JS.Int 0))))
               (JS.ToNumber (JS.Int 2))))
  = JS.Int 256.
Proof. repeat split; reflexivity. Qed.

(** C3, as the code has it: a Linear segment (opcode 1) whose operands
    [len] and [endpoint] are 16-bit words, decoded at a write cursor
    [o > 0] in an array of entries of [bits] bits, advances the cursor by
    [len] and leaves the size of the array and the slots outside
    [[o, o + len)] as they were.  For each [j] from [o] to [o + len - 1]
    that the array has, slot [j] holds [round(output[j - 1] + step)]
    reduced modulo [2^bits], with
    [step = (endpoint - output[o - 1]) / len] a quotient of rationals and
    [output[j - 1]] the value that the decoder stored in the slot before,
    already rounded; it holds the rounded value itself when that fits
    into [bits] bits. *)
Theorem linear_segment_iterative_rounding (T : JS.DataType)
    (lut0 : JS.TypedArray) (o len endpoint : Z) :
  in_width T lut0 ->
  word16 len ->
  word16 endpoint ->
  0 < o ->
  exists lut',
    segment T 1 (JS.Int len) (JS.Int endpoint)
      {| lut := lut0; offset := JS.Int o |}
    = Ok {| lut := lut'; offset := JS.Int (o + len) |} /\
    length lut' = length lut0 /\
    (forall k, ~ (o <= k < o + len) ->
       JS.get lut' (JS.Int k) = JS.get lut0 (JS.Int k)) /\
    forall j, o <= j < o + len -> j < Z.of_nat (length lut0) ->
      exists startpoint prev,
        JS.get lut0 (JS.Int (o - 1)) = JS.Int startpoint /\
        JS.get lut' (JS.Int (j - 1)) = JS.Int prev /\
        let step := ((inject_Z endpoint - inject_Z startpoint) / inject_Z len)%Q in
        let rounded := Qfloor (inject_Z prev + step + (1 # 2)) in
        JS.get lut' (JS.Int j) = JS.Int (rounded mod 2 ^ JS.bits T) /\
        (0 <= rounded < 2 ^ JS.bits T -> JS.get lut' (JS.Int j) = JS.Int rounded).
Proof.
  intros _ [Hlen0 _] _ Ho.
  set (step := JS.div
    (JS.sub (JS.ToNumber (JS.Int endpoint))
            (JS.ToNumber (JS.get lut0 (JS.Int (o - 1)))))
    (JS.ToNumber (JS.Int len))).
  set (lut' := linear_loop T (Z.to_nat len) o step lut0).
  exists lut'. split; [reflexivity|].
  split; [apply linear_loop_length|].
  split; [intros k Hk; apply linear_loop_outside; lia|].
  intros j Hj Hlen.
  destruct (get_inside lut0 (o - 1)) as [startpoint Hs]; [lia|].
  destruct (get_inside lut' (j - 1)) as [prev Hprev].
  { unfold lut'. rewrite linear_loop_length. lia. }
  exists startpoint, prev. split; [done|]. split; [done|].
  assert (Hstep : step
    = Some ((inject_Z endpoint - inject_Z startpoint) / inject_Z len)%Q).
  { unfold step. rewrite Hs. cbn [JS.ToNumber JS.sub JS.div].
    by rewrite Qeq_bool_inject_Z_pos by lia. }
  assert (Hget : JS.get lut' (JS.Int j) = JS.Int
    (Qfloor (inject_Z prev
             + (inject_Z endpoint - inject_Z startpoint) / inject_Z len
             + (1 # 2)) mod 2 ^ JS.bits T)).
  { unfold lut'. rewrite linear_loop_inside by lia.
    fold lut'. by rewrite Hprev, Hstep. }
  cbv zeta. split; [done|].
  intros Hfit. by rewrite Hget, Z.mod_small.
Qed.

Lemma linear_segment_iterative_rounding_witness :
  in_width JS.Uint8Array [10; 0; 0; 0] /\ word16 3 /\ word16 20 /\ 0 < 1 /\
  exists lut',
    segment JS.Uint8Array 1 (JS.Int 3) (JS.Int 20)
      {| lut := [10; 0; 0; 0]; offset := JS.Int 1 |}
    = Ok {| lut := lut'; offset := JS.Int 4 |}.
Proof.
  assert (Hw : in_width JS.Uint8Array [10; 0; 0; 0]).
  { unfold in_width. repeat (apply Forall_cons_2; [simpl; lia|]).
    apply Forall_nil_2. }
  assert (H3 : word16 3) by (unfold word16; lia).
  assert (H20 : word16 20) by (unfold word16; lia).
  repeat (split; [done || lia|]).
  destruct (linear_segment_iterative_rounding JS.Uint8Array [10; 0; 0; 0] 1 3 20
              Hw H3 H20) as (lut' & Hseg & _); [lia|].
  by exists lut'.
Defined.




(** C8: wherever the decoder reads an opcode that is neither 0 nor 1, that
    is after any number of complete Discrete and Linear segments, decoding
    fails: with the unsupported-segment error for opcode 2 (Indirect) and
    with the invalid-segment error for any other value.  What follows the
    opcode in the program plays no part. *)
Theorem expand_rejects_other_opcodes (T : JS.DataType) (n : Z)
    (segs : list (Z * Z * Z)) (opcode : Z) (rest : list Z) :
  0 <= n ->
  Forall (fun s => supported s.1.1) segs ->
  opcode <> 0 -> opcode <> 1 ->
  _expandSegmentedLUTData T n (Some (encode segs ++ opcode :: rest))
  = Err (if opcode =? 2 then IndirectSegmentNotSupported
         else UnexpectedSegmentType).
Proof.
  intros Hn Hsegs H0 H1. unfold _expandSegmentedLUTData.
  rewrite new_TypedArray_nonneg by done. cbn [mbind result_bind].
  rewrite expand_loop_unsupported; [done | done |].
  unfold supported. lia.
Qed.

Lemma expand_rejects_other_opcodes_witness :
  _expandSegmentedLUTData JS.Uint8Array 4 (Some [0; 1; 10; 2; 3; 20])
  = Err IndirectSegmentNotSupported /\
  _expandSegmentedLUTData JS.Uint8Array 4 (Some [0; 1; 10; 1; 2; 20; 7])
  = Err UnexpectedSegmentType.
Proof.
  split.
  - apply (expand_rejects_other_opcodes JS.Uint8Array 4 [(0, 1, 10)] 2 [3; 20]);
      [lia | | lia | lia].
    supported_opcodes.
  - apply (expand_rejects_other_opcodes JS.Uint8Array 4
             [(0, 1, 10); (1, 2, 20)] 7 []); [lia | | lia | lia].
    supported_opcodes.
Defined.

(** ** The constructor *)

(** Runs the checks of a constructor call that is known to succeed. *)
Ltac constructor_checks H :=
  unfold constructor in H;
  repeat match type of H with
         | context [throw_if ?c ?e] =>
             destruct c eqn:?; cbn [throw_if mbind result_bind] in H;
             [discriminate H|]
         end.

(** What a successful construction has checked and stored. *)
Lemma constructor_Ok o this :
  constructor o = Ok this ->
  numberOfEntries this
    = (if at0 (Options.redDescriptor o) =? 0 then 2 ^ 16
       else at0 (Options.redDescriptor o)) /\
  (bitsPerEntry this = 8 /\ DataType this = JS.Uint8Array \/
   bitsPerEntry this = 16 /\ DataType this = JS.Uint16Array) /\
  (forall d, redData this = Some d ->
             Z.of_nat (length d) = numberOfEntries this) /\
  (forall d, greenData this = Some d ->
             Z.of_nat (length d) = numberOfEntries this) /\
  (forall d, blueData this = Some d ->
             Z.of_nat (length d) = numberOfEntries this) /\
  data this = None.
Proof.
  intros H. constructor_checks H.
  destruct (Options.redSegmentedData o), (Options.redData o) as [rd|] eqn:Hr;
    cbn in H; try discriminate H;
  destruct (Options.greenSegmentedData o), (Options.greenData o) as [gd|] eqn:Hg;
    cbn in H; try discriminate H;
  destruct (Options.blueSegmentedData o), (Options.blueData o) as [bd|] eqn:Hb;
    cbn in H; try discriminate H;
  repeat match type of H with
         | context [Z.of_nat (length ?d) =? ?n] =>
             destruct (Z.eqb_spec (Z.of_nat (length d)) n);
             cbn in H; [|discriminate H]
         end;
  inversion H as [Hthis]; clear H Hthis; cbn;
  (split; [done|]);
  (split;
   [destruct (Z.eqb_spec (at2 (Options.redDescriptor o)) 8);
    [by left|
     destruct (Z.eqb_spec (at2 (Options.redDescriptor o)) 16);
     [by right | done]]|]);
  repeat split; try done; by intros d [= <-].
Qed.

(** ** Materialization *)

Lemma resample_rescaled lut j :
  resample lut j 65535 255 = rescaled (JS.get lut (JS.Int j)).
Proof.
  unfold resample, rescale, rescaled.
  destruct (JS.get lut (JS.Int j)) as [| |v]; [done..|].
  cbn [JS.ToNumber JS.sub JS.mul JS.add].
  unfold JS.div.
  replace (Qeq_bool (inject_Z 65535 - inject_Z 0) 0) with false
    by (by vm_compute).
  cbn [JS.add JS.round]. f_equal. apply Qfloor_comp.
  change (inject_Z 65535) with 65535%Q.
  change (inject_Z 255) with 255%Q.
  change (inject_Z 0) with 0%Q.
  field.
Qed.

Lemma Set_size_same `{EqDecision A} (x y : A) :
  x = y -> JS.Set_size [x; y; y] = 1%nat.
Proof.
  intros ->. unfold JS.Set_size. cbn [remove_dups].
  destruct (decide_rel elem_of y [y; y]) as [_|Hn];
    [|destruct Hn; apply list_elem_of_here].
  destruct (decide_rel elem_of y [y]) as [_|Hn];
    [|destruct Hn; apply list_elem_of_here].
  destruct (decide_rel elem_of y []) as [Hin|_]; [|done].
  by apply elem_of_nil in Hin.
Qed.

Section materialization.

Context (o : Options.t) (this : attrs).
Hypothesis constructed : constructor o = Ok this.

(** The exceptions under a channel array are those of the decoder and of
    the runtime. *)
Lemma channelLUT_cases explicit segmented :
  (forall d, explicit = Some d -> Z.of_nat (length d) = numberOfEntries this) ->
  match channelLUT this explicit segmented with
  | Ok lut => Z.of_nat (length lut) = numberOfEntries this
  | Err e => e <> TableSizeMismatch
  end.
Proof.
  intros Hlen. unfold channelLUT, _expandSegmentedLUTData.
  destruct explicit as [d|].
  - unfold JS.from. rewrite length_fmap. by apply Hlen.
  - destruct (new_TypedArray (numberOfEntries this)) as [lut0|e] eqn:Hnew.
    + apply new_TypedArray_length in Hnew.
      destruct segmented as [program|]; cbn; [|done].
      pose proof (expand_loop_cases (DataType this) program
                    {| lut := lut0; offset := JS.Int 0 |}) as H.
      destruct (expand_loop _ _ _) as [st|e]; cbn in *.
      * by rewrite H.
      * by destruct H as [-> | ->].
    + unfold new_TypedArray in Hnew.
      destruct (numberOfEntries this <? 0); by inversion Hnew.
Qed.

Lemma red_cases :
  match channelLUT this (redData this) (redSegmentedData this) with
  | Ok lut => Z.of_nat (length lut) = numberOfEntries this
  | Err e => e <> TableSizeMismatch
  end.
Proof. apply channelLUT_cases, (constructor_Ok o this constructed). Qed.

Lemma green_cases :
  match channelLUT this (greenData this) (greenSegmentedData this) with
  | Ok lut => Z.of_nat (length lut) = numberOfEntries this
  | Err e => e <> TableSizeMismatch
  end.
Proof. apply channelLUT_cases, (constructor_Ok o this constructed). Qed.

Lemma blue_cases :
  match channelLUT this (blueData this) (blueSegmentedData this) with
  | Ok lut => Z.of_nat (length lut) = numberOfEntries this
  | Err e => e <> TableSizeMismatch
  end.
Proof. apply channelLUT_cases, (constructor_Ok o this constructed). Qed.

(** A materialization that succeeds has obtained the three channel arrays,
    each of [numberOfEntries] slots, and its table is the resampling or the
    zip of these. *)
Lemma materialize_Ok table :
  materialize this = Ok table ->
  exists redLUT greenLUT blueLUT,
    channelLUT this (redData this) (redSegmentedData this) = Ok redLUT /\
    channelLUT this (greenData this) (greenSegmentedData this) = Ok greenLUT /\
    channelLUT this (blueData this) (blueSegmentedData this) = Ok blueLUT /\
    Z.of_nat (length redLUT) = numberOfEntries this /\
    Z.of_nat (length greenLUT) = numberOfEntries this /\
    Z.of_nat (length blueLUT) = numberOfEntries this /\
    table =
      if bitsPerEntry this =? 16 then
        (fun i => (resample redLUT (i * 256) 65535 255,
                   resample greenLUT (i * 256) 65535 255,
                   resample blueLUT (i * 256) 65535 255)) <$> seqZ 0 256
      else
        (fun i => (JS.get redLUT (JS.Int i), JS.get greenLUT (JS.Int i),
                   JS.get blueLUT (JS.Int i)))
        <$> seqZ 0 (numberOfEntries this).
Proof.
  unfold materialize.
  pose proof red_cases as Hr. pose proof green_cases as Hg.
  pose proof blue_cases as Hb.
  destruct (channelLUT this (redData this) _) as [redLUT|]; [|done].
  destruct (channelLUT this (greenData this) _) as [greenLUT|]; [|done].
  destruct (channelLUT this (blueData this) _) as [blueLUT|]; [|done].
  cbn [mbind result_bind].
  rewrite Set_size_same by lia. cbn [Nat.ltb Nat.leb throw_if].
  intros H. exists redLUT, greenLUT, blueLUT.
  repeat (split; [done|]).
  destruct (bitsPerEntry this =? 16); by inversion H.
Qed.

Lemma materialize_not_TableSizeMismatch :
  materialize this <> Err TableSizeMismatch.
Proof.
  unfold materialize.
  pose proof red_cases as Hr. pose proof green_cases as Hg.
  pose proof blue_cases as Hb.
  destruct (channelLUT this (redData this) _) as [redLUT|];
    [|cbn; congruence].
  destruct (channelLUT this (greenData this) _) as [greenLUT|];
    [|cbn; congruence].
  destruct (channelLUT this (blueData this) _) as [blueLUT|];
    [|cbn; congruence].
  cbn [mbind result_bind].
  rewrite Set_size_same by lia. cbn [Nat.ltb Nat.leb throw_if].
  by destruct (bitsPerEntry this =? 16).
Qed.

(** The first read of [data] materializes. *)
Lemma get_data_first :
  get_data this =
  match materialize this with
  | Ok table => (Ok table, set_data this (Some table))
  | Err e => (Err e, this)
  end.
Proof.
  unfold get_data.
  by rewrite (proj2 (proj2 (proj2 (proj2 (proj2
                (constructor_Ok o this constructed)))))).
Qed.

Lemma get_data_Ok table :
  (get_data this).1 = Ok table -> materialize this = Ok table.
Proof.
  rewrite get_data_first. by destruct (materialize this).
Qed.

End materialization.

(** The entries of a materialized 16-bit table: always 256 of them, the
    [i]-th taken at index [i * 256] of the channel arrays. *)
Lemma materialize_16_bits o this table :
  constructor o = Ok this ->
  bitsPerEntry this = 16 ->
  materialize this = Ok table ->
  length table = 256%nat /\
  exists redLUT greenLUT blueLUT,
    channelLUT this (redData this) (redSegmentedData this) = Ok redLUT /\
    channelLUT this (greenData this) (greenSegmentedData this) = Ok greenLUT /\
    channelLUT this (blueData this) (blueSegmentedData this) = Ok blueLUT /\
    Z.of_nat (length redLUT) = numberOfEntries this /\
    Z.of_nat (length greenLUT) = numberOfEntries this /\
    Z.of_nat (length blueLUT) = numberOfEntries this /\
    forall i, 0 <= i < 256 ->
      table !! Z.to_nat i
      = Some (rescaled (JS.get redLUT (JS.Int (i * 256))),
              rescaled (JS.get greenLUT (JS.Int (i * 256))),
              rescaled (JS.get blueLUT (JS.Int (i * 256)))).
Proof.
  intros Hc Hbits Hm.
  destruct (materialize_Ok o this Hc table Hm)
    as (redLUT & greenLUT & blueLUT & Hr & Hg & Hb & Hlr & Hlg & Hlb & ->).
  rewrite Hbits. cbn [Z.eqb Pos.eqb].
  split; [by rewrite length_fmap, length_seqZ|].
  exists redLUT, greenLUT, blueLUT. repeat (split; [done|]).
  intros i Hi.
  rewrite list_lookup_fmap, lookup_seqZ_lt by lia. cbn [fmap option_fmap option_map].
  rewrite Z2Nat.id, Z.add_0_l by lia.
  by rewrite <- !resample_rescaled.
Qed.


(** C7: a table constructed with [bitsPerEntry = 8] materializes to
    [numberOfEntries] triplets, a descriptor value of 0 standing for
    65536, and the [i]-th triplet is [(red[i], green[i], blue[i])] of the
    channel arrays. *)
Theorem data_8_bits_zipped (o : Options.t) (this : attrs)
    (table : list triplet) :
  constructor o = Ok this ->
  bitsPerEntry this = 8 ->
  (get_data this).1 = Ok table ->
  Z.of_nat (length table)
    = (if at0 (Options.redDescriptor o) =? 0 then 65536
       else at0 (Options.redDescriptor o)) /\
  exists redLUT greenLUT blueLUT,
    channelLUT this (redData this) (redSegmentedData this) = Ok redLUT /\
    channelLUT this (greenData this) (greenSegmentedData this) = Ok greenLUT /\
    channelLUT this (blueData this) (blueSegmentedData this) = Ok blueLUT /\
    forall i, (i < length table)%nat ->
      exists r g b,
        redLUT !! i = Some r /\ greenLUT !! i = Some g /\
        blueLUT !! i = Some b /\
        table !! i = Some (JS.Int r, JS.Int g, JS.Int b).
Proof.
  intros Hc Hbits Hget. apply (get_data_Ok o this Hc) in Hget.
  destruct (materialize_Ok o this Hc table Hget)
    as (redLUT & greenLUT & blueLUT & Hr & Hg & Hb & Hlr & Hlg & Hlb & ->).
  destruct (constructor_Ok o this Hc) as (Hn & _).
  rewrite Hbits. cbn [Z.eqb Pos.eqb].
  rewrite length_fmap, length_seqZ.
  assert (0 <= numberOfEntries this) by lia.
  split; [rewrite Z2Nat.id by done; exact Hn|].
  exists redLUT, greenLUT, blueLUT. repeat (split; [done|]).
  intros i Hi.
  destruct (lookup_lt_is_Some_2 redLUT i) as [r Hri]; [lia|].
  destruct (lookup_lt_is_Some_2 greenLUT i) as [g Hgi]; [lia|].
  destruct (lookup_lt_is_Some_2 blueLUT i) as [b Hbi]; [lia|].
  exists r, g, b. repeat (split; [done|]).
  rewrite list_lookup_fmap, lookup_seqZ_lt by lia.
  cbn [fmap option_fmap option_map]. unfold JS.get.
  rewrite Z.add_0_l. destruct (Z.leb_spec 0 (Z.of_nat i)); [|lia].
  by rewrite Nat2Z.id, Hri, Hgi, Hbi.
Qed.

(** ** The cache *)

(** A read of [data] with the cache filled returns the cached table and
    leaves the object as it is, whatever the channel data are. *)
Lemma get_data_cached this table :
  data this = Some table -> get_data this = (Ok table, this).
Proof. intros H. unfold get_data. by rewrite H. Qed.

(** C9: the first successful read of [data] on a constructed table stores
    the table it returns in the cache, and the read after it returns the
    same table and leaves the object unchanged; any read that finds this
    table in the cache returns it without looking at the channel data. *)
Theorem data_read_twice (o : Options.t) (this this' : attrs)
    (table : list triplet) :
  constructor o = Ok this ->
  get_data this = (Ok table, this') ->
  data this' = Some table /\
  get_data this' = (Ok table, this') /\
  forall that, data that = Some table -> get_data that = (Ok table, that).
Proof.
  intros Hc Hget. rewrite (get_data_first o this Hc) in Hget.
  destruct (materialize this) as [t|e]; [|discriminate Hget].
  inversion Hget; subst.
  split; [done|]. split; [by apply get_data_cached|].
  intros that Hthat. by apply get_data_cached.
Qed.

(** C10: for a constructed table, each channel array that materialization
    obtains has exactly [numberOfEntries] slots, and no read of [data]
    fails with the channel-length-mismatch error. *)
Theorem channel_arrays_have_numberOfEntries (o : Options.t) (this : attrs) :
  constructor o = Ok this ->
  (forall redLUT,
      channelLUT this (redData this) (redSegmentedData this) = Ok redLUT ->
      Z.of_nat (length redLUT) = numberOfEntries this) /\
  (forall greenLUT,
      channelLUT this (greenData this) (greenSegmentedData this) = Ok greenLUT ->
      Z.of_nat (length greenLUT) = numberOfEntries this) /\
  (forall blueLUT,
      channelLUT this (blueData this) (blueSegmentedData this) = Ok blueLUT ->
      Z.of_nat (length blueLUT) = numberOfEntries this) /\
  (get_data this).1 <> Err TableSizeMismatch /\
  (forall table, (get_data this).1 = Ok table ->
                 (get_data (get_data this).2).1 <> Err TableSizeMismatch).
Proof.
  intros Hc.
  pose proof (red_cases o this Hc) as Hr.
  pose proof (green_cases o this Hc) as Hg.
  pose proof (blue_cases o this Hc) as Hb.
  repeat split.
  - intros lut H. by rewrite H in Hr.
  - intros lut H. by rewrite H in Hg.
  - intros lut H. by rewrite H in Hb.
  - rewrite (get_data_first o this Hc).
    pose proof (materialize_not_TableSizeMismatch o this Hc) as Hm.
    destruct (materialize this); cbn; congruence.
  - intros table. rewrite (get_data_first o this Hc).
    destruct (materialize this) as [t|e]; cbn [fst snd]; [|done].
    intros _. by rewrite (get_data_cached (set_data this (Some t)) t).
Qed.

(** ** Channel data at construction *)

(** Construction enforces that red and green have exactly one of the two
    kinds of data, and that blue does not have both. *)
Lemma constructor_Ok_channels o this :
  constructor o = Ok this ->
  present (redData this) = negb (present (redSegmentedData this)) /\
  present (greenData this) = negb (present (greenSegmentedData this)) /\
  present (blueData this) && present (blueSegmentedData this) = false.
Proof.
  intros H. constructor_checks H.
  destruct (Options.redSegmentedData o), (Options.redData o);
    cbn in H; try discriminate H;
  destruct (Options.greenSegmentedData o), (Options.greenData o);
    cbn in H; try discriminate H;
  destruct (Options.blueSegmentedData o), (Options.blueData o);
    cbn in H; try discriminate H;
  repeat match type of H with
         | context [Z.of_nat (length ?d) =? ?n] =>
             destruct (Z.eqb_spec (Z.of_nat (length d)) n);
             cbn in H; [|discriminate H]
         end;
  by inversion H.
Qed.

(** The branch that reports missing blue data repeats the condition of the
    branch before it, and is never taken. *)
Lemma constructor_never_MissingData_Blue o :
  constructor o <> Err (MissingData Blue).
Proof.
  intros H. constructor_checks H.
  destruct (Options.redSegmentedData o), (Options.redData o);
    cbn in H; try discriminate H;
  destruct (Options.greenSegmentedData o), (Options.greenData o);
    cbn in H; try discriminate H;
  destruct (Options.blueSegmentedData o), (Options.blueData o);
    cbn in H; try discriminate H;
  repeat match type of H with
         | context [Z.of_nat (length ?d) =? ?n] =>
             destruct (Z.eqb_spec (Z.of_nat (length d)) n);
             cbn in H; try discriminate H
         end.
Qed.

(** C1 at the input where the code departs from it: red and green carry
    explicit data, blue carries neither explicit nor segmented data.  The
    constructor accepts the table; the first read of [data] then fails
    inside the decoder, which is handed the missing program. *)
Theorem constructor_accepts_missing_blue :
  exists this,
    constructor blue_missing = Ok this /\
    blueData this = None /\ blueSegmentedData this = None /\
    (get_data this).1 = Err TypeError.
Proof. eexists. split; [reflexivity|]. by vm_compute. Qed.

(** The same is reported for red and for green. *)
Lemma constructor_rejects_missing_red_green :
  constructor red_missing = Err (MissingData Red) /\
  constructor green_missing = Err (MissingData Green).
Proof. split; reflexivity. Qed.

(** Both kinds of data for one channel are a conflict, for each channel. *)
Lemma constructor_rejects_conflicts :
  constructor (both Red) = Err (DataConflict Red) /\
  constructor (both Green) = Err (DataConflict Green) /\
  constructor (both Blue) = Err (DataConflict Blue).
Proof. repeat split; reflexivity. Qed.

(** ** Tables with 16 bits per entry and fewer than 65536 entries *)

(** X16: the triplets of a 16-bit table whose sampling index [i * 256] is
    at or beyond [numberOfEntries] are [NaN]. *)
Lemma data_16_bits_beyond o this table i :
  constructor o = Ok this ->
  bitsPerEntry this = 16 ->
  (get_data this).1 = Ok table ->
  0 <= i < 256 ->
  numberOfEntries this <= i * 256 ->
  table !! Z.to_nat i = Some (JS.NaN, JS.NaN, JS.NaN).
Proof.
  intros Hc Hbits Hget Hi Hn. apply (get_data_Ok o this Hc) in Hget.
  destruct (materialize_16_bits o this table Hc Hbits Hget)
    as (_ & redLUT & greenLUT & blueLUT & _ & _ & _ & Hlr & Hlg & Hlb & Hlook).
  rewrite Hlook by done.
  by rewrite !get_outside by lia.
Qed.

(** C5 at an input where the code departs from it: a 16-bit table of two
    entries.  The read of [data] succeeds and returns 256 triplets; the
    first holds the rescaled entries at index 0, and the second, sampled at
    index 256 of arrays with two slots, is [(NaN, NaN, NaN)]. *)
Theorem data_16_bits_two_entries_NaN :
  exists this table,
    constructor sixteen_bits_two_entries = Ok this /\
    (get_data this).1 = Ok table /\
    length table = 256%nat /\
    table !! 0%nat = Some (JS.Int 255, JS.Int 4, JS.Int 0) /\
    table !! 1%nat = Some (JS.NaN, JS.NaN, JS.NaN).
Proof.
  eexists. eexists. split; [reflexivity|].
  split; [vm_compute; reflexivity|]. by vm_compute.
Qed.

(** The table builder of the module reaches the same state from a colour
    map of two colours and [bitsPerEntry = 16]. *)
Lemma built_16_bits_two_colours_NaN uid :
  exists this table,
    _buildPaletteColorLookupTable uid [(0, 0, 0); (255, 255, 255)] 0 16
      = Ok this /\
    (get_data this).1 = Ok table /\
    table !! 1%nat = Some (JS.NaN, JS.NaN, JS.NaN).
Proof.
  eexists. eexists. split; [reflexivity|].
  split; [vm_compute; reflexivity|]. by vm_compute.
Qed.

(** ** The width of the entries *)

Section width.

Context (T : JS.DataType).

Lemma set_in_width lut i v : in_width T lut -> in_width T (JS.set T lut i v).
Proof.
  intros H. unfold JS.set. destruct (0 <=? i); [|done].
  apply Forall_insert; [done | apply ToUint_range].
Qed.

Lemma discrete_loop_in_width count j value lut :
  in_width T lut -> in_width T (discrete_loop T count j value lut).
Proof.
  revert j lut. induction count as [|count IH]; intros j lut H;
    cbn [discrete_loop]; [done|].
  by apply IH, set_in_width.
Qed.

Lemma linear_loop_in_width count j step lut :
  in_width T lut -> in_width T (linear_loop T count j step lut).
Proof.
  revert j lut. induction count as [|count IH]; intros j lut H;
    cbn [linear_loop]; [done|].
  by apply IH, set_in_width.
Qed.

Lemma segment_in_width opcode operand1 operand2 st st' :
  segment T opcode operand1 operand2 st = Ok st' ->
  in_width T (lut st) -> in_width T (lut st').
Proof.
  unfold segment. intros H Hw.
  destruct (iterations (offset st) operand1) as [j count].
  destruct (opcode =? 0); [inversion H; by apply discrete_loop_in_width|].
  destruct (opcode =? 1); [inversion H; by apply linear_loop_in_width|].
  by destruct (opcode =? 2).
Qed.

Lemma expand_loop_in_width program st st' :
  expand_loop T program st = Ok st' ->
  in_width T (lut st) -> in_width T (lut st').
Proof.
  revert st. induction program as [|op|op o1|op o1 o2 rest IH] using program_ind;
    intros st; cbn [expand_loop].
  - by intros [= <-].
  - destruct (segment _ _ _ _ _) as [st1|] eqn:Hseg; [|done].
    intros [= <-]. by eapply segment_in_width.
  - destruct (segment _ _ _ _ _) as [st1|] eqn:Hseg; [|done].
    intros [= <-]. by eapply segment_in_width.
  - destruct (segment _ _ _ _ _) as [st1|] eqn:Hseg; [|done].
    intros H Hw. apply (IH st1 H). by eapply segment_in_width.
Qed.

Lemma expand_in_width n segmented lut :
  _expandSegmentedLUTData T n segmented = Ok lut -> in_width T lut.
Proof.
  unfold _expandSegmentedLUTData, new_TypedArray.
  destruct (n <? 0); [done|]. cbn [mbind result_bind].
  destruct segmented as [program|]; [|done].
  destruct (expand_loop _ _ _) as [st|] eqn:Hloop; [|done].
  intros [= <-]. apply (expand_loop_in_width _ _ _ Hloop).
  cbn [lut]. apply Forall_replicate. destruct T; simpl; lia.
Qed.

Lemma from_in_width xs : in_width T (JS.from T xs).
Proof.
  unfold in_width, JS.from. apply Forall_fmap, Forall_true.
  intros z. apply (ToUint_range T (JS.Int z)).
Qed.

End width.

Lemma channelLUT_in_width this explicit segmented lut :
  channelLUT this explicit segmented = Ok lut -> in_width (DataType this) lut.
Proof.
  unfold channelLUT. destruct explicit as [d|].
  - intros [= <-]. apply from_in_width.
  - apply expand_in_width.
Qed.

Lemma rescaled_byte v : 0 <= v < 2 ^ 16 -> byte (rescaled (JS.Int v)).
Proof.
  intros Hv. eexists. split; [reflexivity|].
  assert (0 <= inject_Z v <= 65535)%Q as [Hlo Hhi].
  { split; [change 0%Q with (inject_Z 0) | change 65535%Q with (inject_Z 65535)];
      rewrite <- Zle_Qle; lia. }
  split.
  - apply (Z.le_trans _ (Qfloor 0)); [done|].
    apply Qfloor_resp_le.
    unfold Qdiv. change (/ 65535)%Q with (1 # 65535)%Q. lra.
  - apply (Z.le_trans _ (Qfloor (255 + (1 # 2)))); [|done].
    apply Qfloor_resp_le.
    unfold Qdiv. change (/ 65535)%Q with (1 # 65535)%Q. lra.
Qed.

Lemma get_byte T lut i :
  in_width T lut ->
  0 <= i < Z.of_nat (length lut) ->
  exists x, JS.get lut (JS.Int i) = JS.Int x /\ 0 <= x < 2 ^ JS.bits T.
Proof.
  intros Hw [Hi Hlt]. unfold JS.get. destruct (Z.leb_spec 0 i); [|lia].
  destruct (lookup_lt_is_Some_2 lut (Z.to_nat i)) as [x Hx]; [lia|].
  rewrite Hx. exists x. split; [done|].
  unfold in_width in Hw. rewrite Forall_lookup in Hw. by eapply Hw.
Qed.

(** X15, where C5 holds: every triplet of an 8-bit table, and the triplets
    of a 16-bit table that are sampled inside the channel arrays, have
    their three components in [[0, 255]]. *)
Lemma data_components_bytes o this table i r g b :
  constructor o = Ok this ->
  (get_data this).1 = Ok table ->
  table !! i = Some (r, g, b) ->
  bitsPerEntry this = 8 \/ Z.of_nat i * 256 < numberOfEntries this ->
  byte r /\ byte g /\ byte b.
Proof.
  intros Hc Hget Hi Hcase. apply (get_data_Ok o this Hc) in Hget.
  destruct (materialize_Ok o this Hc table Hget)
    as (redLUT & greenLUT & blueLUT & Hr & Hg & Hb & Hlr & Hlg & Hlb & ->).
  apply channelLUT_in_width in Hr, Hg, Hb.
  destruct (constructor_Ok o this Hc) as (_ & Hbits & _).
  destruct Hbits as [[Hbits HT] | [Hbits HT]]; rewrite Hbits, HT in *;
    cbn [Z.eqb Pos.eqb] in Hi; rewrite list_lookup_fmap in Hi.
  - destruct (seqZ 0 (numberOfEntries this) !! i) as [k|] eqn:Hk; [|done].
    apply lookup_seqZ in Hk as [-> Hk]. rewrite Z.add_0_l in Hi.
    injection Hi as <- <- <-.
    destruct (get_byte _ redLUT (Z.of_nat i) Hr) as (x & -> & Hx); [lia|].
    destruct (get_byte _ greenLUT (Z.of_nat i) Hg) as (y & -> & Hy); [lia|].
    destruct (get_byte _ blueLUT (Z.of_nat i) Hb) as (z & -> & Hz); [lia|].
    cbn [JS.bits] in *. repeat split; eexists; (split; [reflexivity | lia]).
  - destruct Hcase as [|Hcase]; [lia|].
    destruct (seqZ 0 256 !! i) as [k|] eqn:Hk; [|done].
    apply lookup_seqZ in Hk as [-> Hk]. rewrite Z.add_0_l in Hi.
    cbn [fmap option_fmap option_map] in Hi.
    rewrite !resample_rescaled in Hi. injection Hi as <- <- <-.
    destruct (get_byte _ redLUT (Z.of_nat i * 256) Hr) as (x & -> & Hx); [lia|].
    destruct (get_byte _ greenLUT (Z.of_nat i * 256) Hg) as (y & -> & Hy); [lia|].
    destruct (get_byte _ blueLUT (Z.of_nat i * 256) Hb) as (z & -> & Hz); [lia|].
    repeat split; by apply rescaled_byte.
Qed.

(** ** Witnesses on concrete tables *)


Lemma data_8_bits_zipped_witness :
  exists this table,
    constructor eight_bits_four_entries = Ok this /\
    bitsPerEntry this = 8 /\
    (get_data this).1 = Ok table /\
    Z.of_nat (length table) = 4.
Proof.
  eexists. eexists. split; [reflexivity|]. split; [reflexivity|].
  split; [vm_compute; reflexivity|].
  refine (proj1 (data_8_bits_zipped eight_bits_four_entries _ _ _ _ _));
    [reflexivity | reflexivity | vm_compute; reflexivity].
Defined.

Lemma data_read_twice_witness :
  exists this this' table,
    constructor eight_bits_four_entries = Ok this /\
    get_data this = (Ok table, this') /\
    get_data this' = (Ok table, this').
Proof.
  eexists. eexists. eexists. split; [reflexivity|].
  split; [vm_compute; reflexivity|].
  refine (proj1 (proj2 (data_read_twice eight_bits_four_entries _ _ _ _ _)));
    [reflexivity | vm_compute; reflexivity].
Defined.

Lemma channel_arrays_have_numberOfEntries_witness :
  exists this,
    constructor eight_bits_four_entries = Ok this /\
    (get_data this).1 <> Err TableSizeMismatch.
Proof.
  eexists. split; [reflexivity|].
  refine (proj1 (proj2 (proj2 (proj2
    (channel_arrays_have_numberOfEntries eight_bits_four_entries _ _))))).
  reflexivity.
Defined.

(** * Further properties of the decoder *)

(** Two arrays with the same element at every index are the same array. *)
Lemma get_ext (a b : JS.TypedArray) :
  (forall k, 0 <= k -> JS.get a (JS.Int k) = JS.get b (JS.Int k)) ->
  a = b.
Proof.
  intros Hget. apply list_eq. intros i.
  specialize (Hget (Z.of_nat i) ltac:(lia)). unfold JS.get in Hget.
  destruct (Z.leb_spec 0 (Z.of_nat i)); [|lia].
  rewrite Nat2Z.id in Hget.
  destruct (a !! i) as [x|] eqn:Ha, (b !! i) as [y|] eqn:Hb;
    try done; try (by inversion Hget).
Qed.

Lemma get_replicate n x k :
  JS.get (replicate n x) (JS.Int k) =
  if decide (0 <= k < Z.of_nat n) then JS.Int x else JS.Undefined.
Proof.
  destruct (decide (0 <= k < Z.of_nat n)) as [Hk|Hk].
  - unfold JS.get. destruct (Z.leb_spec 0 k); [|lia].
    rewrite lookup_replicate_2; [done | lia].
  - apply get_outside. by rewrite length_replicate.
Qed.

(** The integer that a rational lies at or above by less than one is its
    floor. *)
Lemma Qfloor_unique (z : Z) (y : Q) :
  (inject_Z z <= y)%Q -> (y < inject_Z z + 1)%Q -> Qfloor y = z.
Proof.
  intros Hlo Hhi.
  pose proof (Qfloor_le y) as Hfl. pose proof (Qlt_floor y) as Hlt.
  assert (Qfloor y < z + 1).
  { rewrite Zlt_Qlt, inject_Z_plus. change (inject_Z 1) with 1%Q. lra. }
  assert (z < Qfloor y + 1).
  { rewrite Zlt_Qlt. lra. }
  lia.
Qed.

Section segments.

Context (T : JS.DataType).


(** With a step that is [NaN], a Linear loop stores what a Discrete loop
    stores for [NaN]: zeroes. *)
Lemma linear_loop_NaN count j lut :
  linear_loop T count j None lut = discrete_loop T count j JS.NaN lut.
Proof.
  revert j lut. induction count as [|count IH]; intros j lut;
    cbn [linear_loop discrete_loop]; [done|].
  rewrite IH. by destruct (JS.ToNumber (JS.get lut (JS.Int (j - 1)))).
Qed.

(** X2: a Linear segment that comes first, at the write cursor 0, has no
    slot before it to start from.  It completes all the same, moves the
    cursor to [len] and sets the slots of [[0, len)] that the array has to
    0, whatever its endpoint is. *)
Theorem linear_segment_first_zeroes (lut0 : JS.TypedArray) (len endpoint : Z) :
  exists lut',
    segment T 1 (JS.Int len) (JS.Int endpoint)
      {| lut := lut0; offset := JS.Int 0 |}
    = Ok {| lut := lut'; offset := JS.Int len |} /\
    forall k,
      JS.get lut' (JS.Int k) =
      if decide (0 <= k < len /\ k < Z.of_nat (length lut0))
      then JS.Int 0
      else JS.get lut0 (JS.Int k).
Proof.
  exists (discrete_loop T (Z.to_nat len) 0 JS.NaN lut0). split.
  - unfold segment. cbn [Z.eqb offset lut iterations].
    change (JS.isub (JS.Int 0) (JS.Int 1)) with (JS.Int (-1)).
    rewrite (get_outside lut0 (-1)) by lia.
    cbn [JS.ToNumber JS.sub JS.div]. by rewrite linear_loop_NaN.
  - intros k. rewrite discrete_loop_get.
    destruct (decide (0 <= k < len /\ _)).
    + rewrite decide_True by lia. done.
    + rewrite decide_False by lia. done.
Qed.

(** The slot [j + i] of a Linear loop that starts after a slot holding [p]
    holds the [i + 1]-fold image of [p] under "add the step, round, keep
    the low bits". *)
Lemma linear_loop_iter count j q lut p i :
  0 < j ->
  JS.get lut (JS.Int (j - 1)) = JS.Int p ->
  (i < count)%nat ->
  j + Z.of_nat i < Z.of_nat (length lut) ->
  JS.get (linear_loop T count j (Some q) lut) (JS.Int (j + Z.of_nat i))
  = JS.Int (Nat.iter (S i)
      (fun x => Qfloor (inject_Z x + q + (1 # 2)) mod 2 ^ JS.bits T) p).
Proof.
  intros Hj Hp Hi Hlen. induction i as [|i IH].
  - rewrite linear_loop_inside by lia.
    replace (j + Z.of_nat 0 - 1) with (j - 1) by lia.
    rewrite linear_loop_outside by lia. by rewrite Hp.
  - rewrite linear_loop_inside by lia.
    replace (j + Z.of_nat (S i) - 1) with (j + Z.of_nat i) by lia.
    rewrite IH by lia. done.
Qed.

End segments.



Lemma iter_fixed {A} (f : A -> A) (n : nat) (x : A) :
  f x = x -> Nat.iter n f x = x.
Proof. intros H. induction n as [|n IH]; simpl; [done|]. by rewrite IH. Qed.

(** A step in [[-1/2, 1/2)] is rounded away. *)
Lemma round_plateau (s endpoint len : Z) :
  0 < len ->
  - len <= 2 * (endpoint - s) < len ->
  Qfloor (inject_Z s + (inject_Z endpoint - inject_Z s) / inject_Z len + (1 # 2))
  = s.
Proof.
  intros Hlen [Hlo Hhi].
  rewrite Zle_Qle in Hlo. rewrite Zlt_Qlt in Hhi, Hlen.
  unfold Z.sub in Hlo, Hhi.
  rewrite inject_Z_opp, inject_Z_mult, inject_Z_plus, inject_Z_opp in Hlo.
  rewrite inject_Z_mult, inject_Z_plus, inject_Z_opp in Hhi.
  change (inject_Z 2) with 2%Q in *. change (inject_Z 0) with 0%Q in *.
  assert (- (1 # 2) <= (inject_Z endpoint - inject_Z s) / inject_Z len)%Q
    by (apply Qle_shift_div_l; [done | lra]).
  assert ((inject_Z endpoint - inject_Z s) / inject_Z len < 1 # 2)%Q
    by (apply Qlt_shift_div_r; [done | lra]).
  set (q := ((inject_Z endpoint - inject_Z s) / inject_Z len)%Q) in *.
  apply Qfloor_unique; lra.
Qed.

Section linear_segments.

Context (T : JS.DataType).

(** The Linear loop that a segment runs when the slot before the write
    cursor holds [s] and the length is positive. *)
Lemma segment_linear_loop (lut0 : JS.TypedArray) (o len endpoint s : Z) :
  0 < len ->
  JS.get lut0 (JS.Int (o - 1)) = JS.Int s ->
  segment T 1 (JS.Int len) (JS.Int endpoint)
    {| lut := lut0; offset := JS.Int o |}
  = Ok {| lut := linear_loop T (Z.to_nat len) o
                   (Some ((inject_Z endpoint - inject_Z s) / inject_Z len)%Q)
                   lut0;
          offset := JS.Int (o + len) |}.
Proof.
  intros Hlen Hs. unfold segment.
  cbn [Z.eqb offset lut iterations JS.isub JS.iadd]. rewrite Hs.
  cbn [JS.ToNumber JS.sub JS.div].
  by rewrite Qeq_bool_inject_Z_pos by done.
Qed.

(** X3: a Linear segment whose operands are 16-bit words and whose step
    [(endpoint - s) / len] lies in [[-1/2, 1/2)] never leaves the value
    [s] of the slot before it: each slot rounds [s + step] back to [s], so
    that the whole segment is a plateau at [s] and the endpoint is not
    reached. *)
Theorem linear_segment_plateau (lut0 : JS.TypedArray) (o len endpoint s : Z) :
  in_width T lut0 ->
  word16 len ->
  word16 endpoint ->
  0 < o ->
  JS.get lut0 (JS.Int (o - 1)) = JS.Int s ->
  0 < len ->
  - len <= 2 * (endpoint - s) < len ->
  exists lut',
    segment T 1 (JS.Int len) (JS.Int endpoint)
      {| lut := lut0; offset := JS.Int o |}
    = Ok {| lut := lut'; offset := JS.Int (o + len) |} /\
    forall k, o <= k < o + len -> k < Z.of_nat (length lut0) ->
      JS.get lut' (JS.Int k) = JS.Int s.
Proof.
  intros Hw _ _ Ho Hs Hlen [Hlo Hhi].
  eexists. split; [by apply segment_linear_loop|].
  intros k Hk Hin.
  assert (Hsw : 0 <= s < 2 ^ JS.bits T).
  { destruct (get_byte T lut0 (o - 1) Hw) as (x & Hx & Hr); [lia|].
    rewrite Hs in Hx. by inversion Hx. }
  replace k with (o + Z.of_nat (Z.to_nat (k - o))) by lia.
  rewrite (linear_loop_iter T _ _ _ _ s) by (done || lia).
  f_equal. apply iter_fixed.
  rewrite round_plateau by done. by apply Z.mod_small.
Qed.

End linear_segments.


Section ramps.

Context (T : JS.DataType).


(** X5: whatever the program, the array that the decoder returns holds
    in every slot an unsigned integer of the width of the entries, below
    256 for 8 bits and below 65536 for 16 bits. *)
Theorem expand_keeps_the_width (n : Z) (segmentedData : option (list Z))
    (lut' : JS.TypedArray) :
  _expandSegmentedLUTData T n segmentedData = Ok lut' ->
  Forall (fun x => 0 <= x < 2 ^ JS.bits T) lut'.
Proof. apply expand_in_width. Qed.

(** Decoding complete segments and then the rest of a program. *)
Lemma expand_loop_encode_app (segs : list (Z * Z * Z)) (rest : list Z)
    (st : decoder) :
  expand_loop T (encode segs ++ rest) st =
  match expand_loop T (encode segs) st with
  | Ok st' => expand_loop T rest st'
  | Err e => Err e
  end.
Proof.
  revert st. induction segs as [|[[op o1] o2] segs IH]; intros st;
    cbn [encode app expand_loop]; [done|].
  cbn [token tail].
  destruct (segment T op (JS.Int o1) (JS.Int o2) st) as [st1|e]; [|done].
  apply IH.
Qed.

(** X6: decoding composes over complete segments: decoding the program
    [encode segs1 ++ encode segs2] is decoding [encode segs1] and then,
    from the array and the write cursor reached, decoding [encode segs2];
    an error in the first part is the error of the whole. *)
Theorem expand_loop_composes (segs1 segs2 : list (Z * Z * Z)) (st : decoder) :
  expand_loop T (encode segs1 ++ encode segs2) st =
  match expand_loop T (encode segs1) st with
  | Ok st' => expand_loop T (encode segs2) st'
  | Err e => Err e
  end.
Proof. apply expand_loop_encode_app. Qed.

End ramps.

Section frames.

Context (T : JS.DataType).

(** A complete Discrete or Linear segment at the write cursor [o] moves
    the cursor by its length and writes inside [[o, o + len)] only. *)
Lemma segment_frame (op len v o : Z) (st : decoder) :
  supported op ->
  offset st = JS.Int o ->
  exists st',
    segment T op (JS.Int len) (JS.Int v) st = Ok st' /\
    offset st' = JS.Int (o + len) /\
    length (lut st') = length (lut st) /\
    forall k, ~ (o <= k < o + len) ->
      JS.get (lut st') (JS.Int k) = JS.get (lut st) (JS.Int k).
Proof.
  intros [-> | ->] Ho; unfold segment; rewrite Ho;
    cbn [Z.eqb iterations JS.iadd];
    (eexists; split; [reflexivity|]); cbn [offset lut];
    (split; [done|]).
  - split; [apply discrete_loop_length|].
    intros k Hk. rewrite discrete_loop_get. by rewrite decide_False by lia.
  - split; [apply linear_loop_length|].
    intros k Hk. apply linear_loop_outside. lia.
Qed.

Lemma total_length_nonneg (segs : list (Z * Z * Z)) :
  Forall plain_segment segs -> 0 <= total_length segs.
Proof.
  induction 1 as [|[[op len] v] segs [_ Hlen] _ IH];
    unfold total_length in *; cbn in *; lia.
Qed.

(** Complete segments with lengths that are not negative, decoded from the
    write cursor [o]: the decoder completes, the cursor ends at [o] plus
    the sum of the lengths, and no slot outside that range has changed. *)
Lemma expand_loop_frame (segs : list (Z * Z * Z)) (o : Z) (st : decoder) :
  Forall plain_segment segs ->
  offset st = JS.Int o ->
  exists st',
    expand_loop T (encode segs) st = Ok st' /\
    offset st' = JS.Int (o + total_length segs) /\
    length (lut st') = length (lut st) /\
    forall k, ~ (o <= k < o + total_length segs) ->
      JS.get (lut st') (JS.Int k) = JS.get (lut st) (JS.Int k).
Proof.
  intros Hsegs. revert o st.
  induction Hsegs as [|[[op len] v] segs [Hop Hlen] Hsegs IH]; intros o st Ho.
  - exists st. cbn. rewrite Z.add_0_r. by repeat split.
  - cbn [encode expand_loop token tail total_length foldr] in *.
    cbn [fst snd] in *.
    destruct (segment_frame op len v o st Hop Ho)
      as (st1 & -> & Ho1 & Hl1 & Hf1).
    destruct (IH (o + len) st1 Ho1) as (st2 & -> & Ho2 & Hl2 & Hf2).
    pose proof (total_length_nonneg segs Hsegs).
    exists st2. split; [done|]. unfold total_length in *.
    split; [by rewrite Ho2, Z.add_assoc|].
    split; [congruence|].
    intros k Hk. rewrite Hf2 by lia. apply Hf1. lia.
Qed.


(** X7: the decoder does not pad.  For a program of complete Discrete and
    Linear segments whose lengths are not negative, decoding completes and
    every slot from the sum of the lengths on is still 0, as allocated. *)
Theorem expand_does_not_pad (n : Z) (segs : list (Z * Z * Z)) :
  0 <= n ->
  Forall plain_segment segs ->
  exists lut',
    _expandSegmentedLUTData T n (Some (encode segs)) = Ok lut' /\
    forall k, total_length segs <= k < n -> JS.get lut' (JS.Int k) = JS.Int 0.
Proof.
  intros Hn Hsegs. unfold _expandSegmentedLUTData.
  rewrite new_TypedArray_nonneg by done. cbn [mbind result_bind].
  destruct (expand_loop_frame segs 0
              {| lut := replicate (Z.to_nat n) 0; offset := JS.Int 0 |}
              Hsegs eq_refl) as (st' & -> & _ & _ & Hf).
  pose proof (total_length_nonneg segs Hsegs).
  exists (lut st'). split; [done|].
  intros k Hk. rewrite Hf by lia. cbn [lut].
  rewrite get_replicate. by rewrite decide_True by lia.
Qed.

(** X8: the decoder never rewrites what it has written.  When segments
    with lengths that are not negative are appended to such a program, the
    slots below the sum of the lengths of the first part come out as they
    do for the first part alone. *)
Theorem expand_prefix_stable (n : Z) (segs1 segs2 : list (Z * Z * Z)) :
  0 <= n ->
  Forall plain_segment segs1 ->
  Forall plain_segment segs2 ->
  exists lut1 lut2,
    _expandSegmentedLUTData T n (Some (encode segs1)) = Ok lut1 /\
    _expandSegmentedLUTData T n (Some (encode segs1 ++ encode segs2)) = Ok lut2 /\
    forall k, k < total_length segs1 ->
      JS.get lut2 (JS.Int k) = JS.get lut1 (JS.Int k).
Proof.
  intros Hn H1 H2. unfold _expandSegmentedLUTData.
  rewrite new_TypedArray_nonneg by done. cbn [mbind result_bind].
  rewrite expand_loop_encode_app.
  destruct (expand_loop_frame segs1 0
              {| lut := replicate (Z.to_nat n) 0; offset := JS.Int 0 |}
              H1 eq_refl) as (st1 & -> & Ho1 & _ & _).
  destruct (expand_loop_frame segs2 (0 + total_length segs1) st1 H2 Ho1)
    as (st2 & -> & _ & _ & Hf).
  exists (lut st1), (lut st2). repeat split.
  intros k Hk. apply Hf. lia.
Qed.



(** X10: a program may end right after an opcode.  When that opcode is 0
    or 1 the decoder reads [undefined] for both operands, runs no
    iteration, and returns what it returns for the program without the
    dangling opcode. *)
Theorem expand_dangling_opcode (n : Z) (segs : list (Z * Z * Z)) (opcode : Z) :
  supported opcode ->
  _expandSegmentedLUTData T n (Some (encode segs ++ [opcode]))
  = _expandSegmentedLUTData T n (Some (encode segs)).
Proof.
  intros Hop. unfold _expandSegmentedLUTData.
  destruct (new_TypedArray n) as [lut0|]; [|done]. cbn [mbind result_bind].
  rewrite expand_loop_encode_app.
  destruct (expand_loop T (encode segs) _) as [st|]; [|done].
  cbn [expand_loop token tail].
  destruct Hop as [-> | ->]; unfold segment; cbn [Z.eqb];
    by destruct (offset st).
Qed.

End frames.

(** * Further properties of the constructor *)

(** A [Set] of three values has one element exactly when the three are
    equal. *)
Lemma Set_size_3 (a b c : Z) :
  (JS.Set_size [a; b; c] =? 1)%nat = true <-> a = b /\ b = c.
Proof.
  unfold JS.Set_size. cbn [remove_dups].
  destruct (decide_rel elem_of a [b; c]) as [Ha|Ha];
  destruct (decide_rel elem_of b [c]) as [Hb|Hb];
  destruct (decide_rel elem_of c []) as [Hc|Hc];
  rewrite ?elem_of_cons, ?elem_of_nil in *; cbn; split;
    try done; try lia; try tauto; intros; exfalso; intuition congruence.
Qed.

Lemma Set_size_3_equal (a b c : Z) :
  a = b -> b = c -> negb (JS.Set_size [a; b; c] =? 1)%nat = false.
Proof. intros Hab Hbc. by rewrite (proj2 (Set_size_3 a b c)). Qed.

Lemma Set_size_3_differ (a b c : Z) :
  ~ (a = b /\ b = c) -> negb (JS.Set_size [a; b; c] =? 1)%nat = true.
Proof.
  intros H. destruct (JS.Set_size [a; b; c] =? 1)%nat eqn:E; [|done].
  by apply Set_size_3 in E.
Qed.

Lemma check_length_passes data n c :
  (forall d, data = Some d -> Z.of_nat (length d) = n) ->
  check_length data n c = Ok tt.
Proof.
  intros H. destruct data as [d|]; [|done]. cbn.
  by rewrite (H d eq_refl), Z.eqb_refl.
Qed.

(** The options on which the constructor succeeds, and what it returns. *)
Lemma constructor_Ok_iff (o : Options.t) (this : attrs) :
  constructor o = Ok this <-> accepted o /\ this = constructed o.
Proof.
  split.
  - intros H. constructor_checks H.
    repeat match goal with
           | E : negb (JS.Set_size _ =? 1)%nat = false |- _ =>
               apply negb_false_iff, Set_size_3 in E
           end.
    match goal with
    | E : negb (_ || _) = false |- _ =>
        apply negb_false_iff, orb_true_iff in E; rewrite !Z.eqb_eq in E
    end.
    unfold accepted, constructed.
    destruct (Options.redSegmentedData o), (Options.redData o);
      cbn in H; try discriminate H;
    destruct (Options.greenSegmentedData o), (Options.greenData o);
      cbn in H; try discriminate H;
    destruct (Options.blueSegmentedData o), (Options.blueData o);
      cbn in H; try discriminate H;
    repeat match type of H with
           | context [Z.of_nat (length ?d) =? ?n] =>
               destruct (Z.eqb_spec (Z.of_nat (length d)) n);
               cbn in H; [|discriminate H]
           end;
    inversion H as [Hthis]; clear H Hthis;
    (split; [|reflexivity]);
    cbn; repeat (split; [done|]);
    repeat split; (done || by intros d [= <-]).
  - intros [(H0 & H1 & H2 & Hbits & Hr & Hg & Hb & Hlr & Hlg & Hlb) ->].
    cbv zeta in *. unfold constructor, constructed. cbv zeta.
    rewrite !Set_size_3_equal by tauto.
    assert (negb ((at2 (Options.redDescriptor o) =? 8)
                  || (at2 (Options.redDescriptor o) =? 16)) = false) as ->
      by (destruct Hbits as [-> | ->]; reflexivity).
    cbn [throw_if mbind result_bind].
    change (2 ^ 16) with 65536.
    rewrite !check_length_passes by done.
    destruct (Options.redSegmentedData o), (Options.redData o);
      try discriminate Hr;
    destruct (Options.greenSegmentedData o), (Options.greenData o);
      try discriminate Hg;
    destruct (Options.blueSegmentedData o), (Options.blueData o);
      try discriminate Hb; reflexivity.
Qed.

(** X11: the constructor succeeds exactly on the options that agree on the
    three descriptors, announce 8 or 16 bits, carry exactly one kind of
    data for red and for green and not both kinds for blue, and whose
    explicit data have [numberOfEntries] elements (65536 for a descriptor
    value of 0).  It then stores the options as they are, with an empty
    cache; the content of segmented data plays no part. *)
Theorem constructor_succeeds_iff (o : Options.t) (this : attrs) :
  constructor o = Ok this <-> accepted o /\ this = constructed o.
Proof. apply constructor_Ok_iff. Qed.

(** X12: the descriptor checks come first and in a fixed order, whatever
    the channel data are.  Descriptors that disagree on the number of
    entries fail with the first descriptor error; else descriptors that
    disagree on the first value mapped fail with the second; else
    descriptors that disagree on the bits per entry fail with the third;
    else a width other than 8 and 16 fails with the unsupported-width
    error. *)
Theorem constructor_descriptor_errors (o : Options.t) :
  let red := Options.redDescriptor o in
  let green := Options.greenDescriptor o in
  let blue := Options.blueDescriptor o in
  let agree (f : descriptor -> Z) := f red = f green /\ f green = f blue in
  (~ agree at0 -> constructor o = Err FirstDescriptorMismatch) /\
  (agree at0 -> ~ agree at1 -> constructor o = Err SecondDescriptorMismatch) /\
  (agree at0 -> agree at1 -> ~ agree at2 ->
   constructor o = Err ThirdDescriptorMismatch) /\
  (agree at0 -> agree at1 -> agree at2 -> at2 red <> 8 -> at2 red <> 16 ->
   constructor o = Err UnsupportedBitsPerEntry).
Proof.
  cbv beta zeta. unfold constructor. cbv beta zeta.
  set (r := Options.redDescriptor o). set (g := Options.greenDescriptor o).
  set (b := Options.blueDescriptor o).
  repeat split.
  - intros H0.
    rewrite (Set_size_3_differ (at0 r) (at0 g) (at0 b)) by tauto. reflexivity.
  - intros H0 H1.
    rewrite (Set_size_3_equal (at0 r) (at0 g) (at0 b)) by tauto.
    rewrite (Set_size_3_differ (at1 r) (at1 g) (at1 b)) by tauto. reflexivity.
  - intros H0 H1 H2.
    rewrite (Set_size_3_equal (at0 r) (at0 g) (at0 b)) by tauto.
    rewrite (Set_size_3_equal (at1 r) (at1 g) (at1 b)) by tauto.
    rewrite (Set_size_3_differ (at2 r) (at2 g) (at2 b)) by tauto. reflexivity.
  - intros H0 H1 H2 H8 H16. rewrite !Set_size_3_equal by tauto.
    cbn [throw_if mbind result_bind].
    destruct (Z.eqb_spec (at2 r) 8); [done|].
    destruct (Z.eqb_spec (at2 r) 16); [done|].
    reflexivity.
Qed.

(** * Further properties of the table builder *)

Lemma from_ToUint {A} T (h : A -> Z) (xs : list A) :
  JS.from T ((fun x => JS.ToUint T (JS.Int (h x))) <$> xs)
  = (fun x => JS.ToUint T (JS.Int (h x))) <$> xs.
Proof.
  unfold JS.from. rewrite <- list_fmap_compose. apply list_fmap_ext.
  intros _ x _. cbn. apply Z.mod_mod. destruct T; simpl; lia.
Qed.

(** The options that the builder passes to the constructor. *)
Lemma build_unfold uid data fvm bits :
  _buildPaletteColorLookupTable uid data fvm bits =
  let T := if bits =? 8 then JS.Uint8Array else JS.Uint16Array in
  let d := (Z.of_nat (length data), fvm, bits) in
  constructor
    {| Options.uid := uid;
       Options.redDescriptor := d;
       Options.greenDescriptor := d;
       Options.blueDescriptor := d;
       Options.redData := Some ((fun c => JS.ToUint T (JS.Int c.1.1)) <$> data);
       Options.greenData := Some ((fun c => JS.ToUint T (JS.Int c.1.2)) <$> data);
       Options.blueData := Some ((fun c => JS.ToUint T (JS.Int c.2)) <$> data);
       Options.redSegmentedData := None;
       Options.greenSegmentedData := None;
       Options.blueSegmentedData := None |}.
Proof. reflexivity. Qed.

(** X13: the builder succeeds exactly for a colour map that is not empty
    and a width of 8 or 16 bits.  Any other width fails with the
    unsupported-width error; an empty colour map of a good width fails
    with the wrong-number-of-entries error for red, since its descriptor
    value 0 stands for 65536 entries. *)
Theorem build_cases (uid : string) (data : list color)
    (firstValueMapped bitsPerEntry : Z) :
  (bitsPerEntry <> 8 -> bitsPerEntry <> 16 ->
   _buildPaletteColorLookupTable uid data firstValueMapped bitsPerEntry
   = Err UnsupportedBitsPerEntry) /\
  (bitsPerEntry = 8 \/ bitsPerEntry = 16 -> data = [] ->
   _buildPaletteColorLookupTable uid data firstValueMapped bitsPerEntry
   = Err (WrongNumberOfEntries Red)) /\
  (bitsPerEntry = 8 \/ bitsPerEntry = 16 -> data <> [] ->
   exists this,
     _buildPaletteColorLookupTable uid data firstValueMapped bitsPerEntry
     = Ok this /\
     numberOfEntries this = Z.of_nat (length data) /\
     PaletteColorLookupTable.firstValueMapped this = firstValueMapped /\
     PaletteColorLookupTable.bitsPerEntry this = bitsPerEntry /\
     PaletteColorLookupTable.uid this = uid).
Proof.
  repeat split.
  - intros H8 H16. rewrite build_unfold. cbv zeta.
    unfold constructor. cbv zeta. cbn [Options.redDescriptor
      Options.greenDescriptor Options.blueDescriptor].
    rewrite !Set_size_3_equal by done. cbn [throw_if mbind result_bind].
    unfold at2. cbn [fst snd].
    destruct (Z.eqb_spec bitsPerEntry 8); [done|].
    destruct (Z.eqb_spec bitsPerEntry 16); [done|]. reflexivity.
  - intros Hbits ->. rewrite build_unfold. cbv zeta.
    unfold constructor. cbv zeta. cbn [Options.redDescriptor
      Options.greenDescriptor Options.blueDescriptor].
    rewrite !Set_size_3_equal by done.
    destruct Hbits as [-> | ->]; reflexivity.
  - intros Hbits Hdata. rewrite build_unfold. cbv zeta.
    assert (Z.of_nat (length data) <> 0) by (destruct data; [done | simpl; lia]).
    match goal with
    | |- exists this, constructor ?o = _ /\ _ => exists (constructed o)
    end.
    split.
    + apply constructor_Ok_iff. split; [|reflexivity].
      unfold accepted. cbn.
      repeat split; try done; intros d [= <-]; rewrite length_fmap;
        destruct (Z.eqb_spec (Z.of_nat (length data)) 0); lia.
    + cbn. destruct (Z.eqb_spec (Z.of_nat (length data)) 0); [lia | done].
Qed.

(** The zip of three arrays that are maps of one list is a map of that
    list. *)
Lemma zip_of_maps {A} (fr fg fb : A -> Z) (xs : list A) :
  (fun i => (JS.get (fr <$> xs) (JS.Int i), JS.get (fg <$> xs) (JS.Int i),
             JS.get (fb <$> xs) (JS.Int i)))
  <$> seqZ 0 (Z.of_nat (length xs))
  = (fun x => (JS.Int (fr x), JS.Int (fg x), JS.Int (fb x))) <$> xs.
Proof.
  apply list_eq. intros i. rewrite !list_lookup_fmap.
  destruct (xs !! i) as [x|] eqn:Hx.
  - apply lookup_lt_Some in Hx as Hi.
    rewrite lookup_seqZ_lt by lia. cbn [fmap option_fmap option_map].
    unfold JS.get. rewrite Z.add_0_l.
    destruct (Z.leb_spec 0 (Z.of_nat i)); [|lia].
    by rewrite Nat2Z.id, !list_lookup_fmap, Hx.
  - apply lookup_ge_None in Hx. by rewrite lookup_seqZ_ge by lia.
Qed.

(** X14: building a table of 8-bit entries from a colour map that is not
    empty and reading its [data] gives the colour map back, one triplet for
    each colour in order, each component reduced modulo 256; a colour map
    of components in [[0, 255]] comes back unchanged. *)
Theorem build_then_read_8_bits (uid : string) (colors : list color)
    (firstValueMapped : Z) :
  colors <> [] ->
  exists this,
    _buildPaletteColorLookupTable uid colors firstValueMapped 8 = Ok this /\
    (get_data this).1 = Ok (stored_color <$> colors) /\
    (Forall (fun c => 0 <= c.1.1 < 256 /\ 0 <= c.1.2 < 256 /\ 0 <= c.2 < 256)
            colors ->
     (get_data this).1
     = Ok ((fun c => (JS.Int c.1.1, JS.Int c.1.2, JS.Int c.2)) <$> colors)).
Proof.
  intros Hdata. rewrite build_unfold. cbv zeta.
  assert (Hn : Z.of_nat (length colors) <> 0)
    by (destruct colors; [done | simpl; lia]).
  match goal with
  | |- exists this, constructor ?o = _ /\ _ => exists (constructed o)
  end.
  assert (Hread : (get_data (constructed
    {| Options.uid := uid;
       Options.redDescriptor := (Z.of_nat (length colors), firstValueMapped, 8);
       Options.greenDescriptor := (Z.of_nat (length colors), firstValueMapped, 8);
       Options.blueDescriptor := (Z.of_nat (length colors), firstValueMapped, 8);
       Options.redData :=
         Some ((fun c => JS.ToUint JS.Uint8Array (JS.Int c.1.1)) <$> colors);
       Options.greenData :=
         Some ((fun c => JS.ToUint JS.Uint8Array (JS.Int c.1.2)) <$> colors);
       Options.blueData :=
         Some ((fun c => JS.ToUint JS.Uint8Array (JS.Int c.2)) <$> colors);
       Options.redSegmentedData := None;
       Options.greenSegmentedData := None;
       Options.blueSegmentedData := None |})).1 = Ok (stored_color <$> colors)).
  { unfold get_data, constructed, materialize, channelLUT.
    cbn [PaletteColorLookupTable.data redData greenData blueData DataType bitsPerEntry numberOfEntries
         Options.redData Options.greenData Options.blueData
         Options.redDescriptor at0 at2 fst snd Z.eqb Pos.eqb].
    rewrite !from_ToUint. cbn [mbind result_bind].
    rewrite Set_size_same by (by rewrite !length_fmap).
    cbn [Nat.ltb Nat.leb throw_if mbind result_bind fst].
    destruct (Z.eqb_spec (Z.of_nat (length colors)) 0); [done|].
    cbn [fst]. f_equal.
    apply (zip_of_maps (fun c => JS.ToUint JS.Uint8Array (JS.Int c.1.1))
             (fun c => JS.ToUint JS.Uint8Array (JS.Int c.1.2))
             (fun c => JS.ToUint JS.Uint8Array (JS.Int c.2))). }
  split; [|split; [exact Hread|]].
  - apply constructor_Ok_iff. split; [|reflexivity].
    unfold accepted. cbn.
    repeat split; try done; try (by left); intros d [= <-];
      rewrite length_fmap;
      destruct (Z.eqb_spec (Z.of_nat (length colors)) 0); lia.
  - intros Hbytes.
    transitivity (Ok (A := list triplet) (stored_color <$> colors));
      [exact Hread|].
    f_equal.
    apply list_fmap_ext. intros i c Hc.
    rewrite Forall_lookup in Hbytes. destruct (Hbytes i c Hc) as (Hr & Hg & Hb).
    unfold stored_color. by rewrite !Z.mod_small by done.
Qed.

(** * Further properties of the getter [data] *)

Section reading.

Context (o : Options.t) (this : attrs).
Hypothesis constructed_from : constructor o = Ok this.


(** What a channel that gives no array raises. *)
Lemma channelLUT_Err explicit segmented e :
  channelLUT this explicit segmented = Err e ->
  e = RangeError \/ e = TypeError \/
  e = IndirectSegmentNotSupported \/ e = UnexpectedSegmentType.
Proof.
  unfold channelLUT, _expandSegmentedLUTData, new_TypedArray.
  destruct explicit as [d|]; [done|].
  destruct (numberOfEntries this <? 0); cbn [mbind result_bind];
    [intros [= <-]; tauto|].
  destruct segmented as [program|]; [|intros [= <-]; tauto].
  pose proof (expand_loop_cases (DataType this) program
    {| lut := replicate (Z.to_nat (numberOfEntries this)) 0;
       offset := JS.Int 0 |}) as H.
  destruct (expand_loop _ _ _) as [st|e']; cbn; [done|].
  intros [= <-]. tauto.
Qed.


Lemma materialize_Err e :
  materialize this = Err e ->
  e = RangeError \/ e = TypeError \/
  e = IndirectSegmentNotSupported \/ e = UnexpectedSegmentType.
Proof.
  unfold materialize.
  pose proof (red_cases o this constructed_from) as Hlr.
  pose proof (blue_cases o this constructed_from) as Hlb.
  destruct (channelLUT this (redData this) _) as [r|] eqn:Hr;
    [|intros [= <-]; by eapply channelLUT_Err].
  destruct (channelLUT this (greenData this) _) as [g|] eqn:Hg;
    [|intros [= <-]; by eapply channelLUT_Err].
  destruct (channelLUT this (blueData this) _) as [b|] eqn:Hb;
    [|intros [= <-]; by eapply channelLUT_Err].
  cbn [mbind result_bind].
  rewrite Set_size_same by lia. cbn [Nat.ltb Nat.leb throw_if].
  by destruct (bitsPerEntry this =? 16).
Qed.

(** X17: a read of [data] that fails on a constructed table leaves the
    object as it was, cache unset, so that the next read fails in the same
    way; and it fails only with what the decoder or the runtime raises
    under it: the unsupported-segment or the invalid-segment error, a
    [TypeError] for a channel without data, or a [RangeError] for a
    negative number of entries. *)
Theorem data_read_failure (e : error) (this' : attrs) :
  get_data this = (Err e, this') ->
  this' = this /\
  get_data this' = (Err e, this') /\
  (e = RangeError \/ e = TypeError \/
   e = IndirectSegmentNotSupported \/ e = UnexpectedSegmentType).
Proof.
  intros H. pose proof H as H'.
  rewrite (get_data_first o this constructed_from) in H.
  destruct (materialize this) as [table|e'] eqn:Hm; [done|].
  inversion H as [[He Hthis]]. rewrite <- Hthis, <- He in *.
  split; [done|]. split; [done|].
  by apply materialize_Err.
Qed.


End reading.

(** * Colour maps *)

(** Membership of a string in a list of literal strings. *)
Ltac in_literals :=
  repeat first [apply list_elem_of_here | apply list_elem_of_further].

Section colour_maps.

Context (colormap : option string -> Z -> option (list color)).

(** X19: for each of the eight names of [ColorMaps], [createColorMap]
    never throws its unknown-colormap error: it asks the package for the
    internal name that [lut] maps the name to, passes on what the package
    throws, and returns the colours of the package, in reverse order for
    ["PHASE"] and in the order of the package for the seven others; the
    number of colours is that of the package. *)
Theorem createColorMap_known (name : string) (bins : Z) :
  name ∈ ColorMaps ->
  exists internalName,
    own_key lut_keys name = Some (internalName, String.eqb name "PHASE") /\
    createColorMap colormap name bins =
    match colormap (Some internalName) bins with
    | Some colors =>
        Returns (if String.eqb name "PHASE" then rev colors else colors)
    | None => Throws ColormapError
    end /\
    forall colors',
      createColorMap colormap name bins = Returns colors' ->
      exists colors, colormap (Some internalName) bins = Some colors /\
                     length colors' = length colors.
Proof.
  intros Hin. unfold ColorMaps in Hin.
  repeat (apply elem_of_cons in Hin as [-> | Hin]);
    [..|by apply elem_of_nil in Hin];
    (eexists; split; [reflexivity|]);
    unfold createColorMap; cbn [lut_get own_key lut_keys String.eqb Ascii.eqb
                                 Bool.eqb];
    (split; [by destruct (colormap _ bins)|]);
    intros colors' H; destruct (colormap _ bins) as [colors|]; try done;
    inversion H; subst; eexists; (split; [reflexivity|]);
    by rewrite ?length_rev.
Qed.

(** X20: a name that is neither one of the eight of [ColorMaps] nor the
    name of a member of [Object.prototype] makes [createColorMap] throw
    its unknown-colormap error without calling the package.  The name of a
    member of [Object.prototype], such as ["toString"], is not reported as
    unknown: [lut[name]] is then the inherited member, and the package is
    called with an [undefined] name and its colours returned as they are. *)
Theorem createColorMap_other_names (name : string) (bins : Z) :
  name ∉ ColorMaps ->
  (name ∉ Object_prototype ->
   createColorMap colormap name bins = Throws (UnknownColormap name)) /\
  (name ∈ Object_prototype ->
   createColorMap colormap name bins =
   match colormap None bins with
   | Some colors => Returns colors
   | None => Throws ColormapError
   end).
Proof.
  intros Hnot.
  assert (Hown : own_key lut_keys name = None).
  { unfold lut_keys. cbn [own_key].
    repeat match goal with
           | |- context [String.eqb ?key name] =>
               destruct (String.eqb_spec key name) as [<-|_];
               [exfalso; apply Hnot; unfold ColorMaps; in_literals|]
           end.
    reflexivity. }
  unfold createColorMap, lut_get. rewrite Hown. split.
  - intros Hproto.
    assert (existsb (String.eqb name) Object_prototype = false) as ->; [|done].
    unfold Object_prototype. cbn [existsb].
    repeat match goal with
           | |- context [String.eqb name ?key] =>
               destruct (String.eqb_spec name key) as [->|_];
               [exfalso; apply Hproto; unfold Object_prototype; in_literals|]
           end.
    reflexivity.
  - intros Hproto.
    assert (existsb (String.eqb name) Object_prototype = true) as ->.
    { apply existsb_exists. exists name. split; [|apply String.eqb_refl].
      by apply list_elem_of_In. }
    by destruct (colormap None bins).
Qed.

End colour_maps.

(** * The displayed value of a 16-bit entry *)

(** Since [65535 = 255 * 257], rescaling [v] and rounding is rounding
    [v / 257]. *)
Lemma rescaled_closed_form (v : Z) :
  rescaled (JS.Int v) = JS.Int ((2 * v + 257) / 514).
Proof.
  unfold rescaled. f_equal. rewrite Zdiv_Qdiv. apply Qfloor_comp.
  rewrite inject_Z_plus, inject_Z_mult.
  change (inject_Z 2) with 2%Q. change (inject_Z 257) with 257%Q.
  change (inject_Z 514) with 514%Q. field.
Qed.

(** X21: in a table of 16-bit entries, a triplet that is sampled inside
    the channel arrays shows each sampled entry [v] as [v / 257] rounded to
    the nearest integer, that is as [(2 v + 257) / 514] in integer
    division. *)
Theorem data_16_bits_closed_form (o : Options.t) (this : attrs)
    (table : list triplet) (i : Z) :
  constructor o = Ok this ->
  bitsPerEntry this = 16 ->
  (get_data this).1 = Ok table ->
  0 <= i < 256 ->
  i * 256 < numberOfEntries this ->
  exists redLUT greenLUT blueLUT r g b,
    channelLUT this (redData this) (redSegmentedData this) = Ok redLUT /\
    channelLUT this (greenData this) (greenSegmentedData this) = Ok greenLUT /\
    channelLUT this (blueData this) (blueSegmentedData this) = Ok blueLUT /\
    redLUT !! Z.to_nat (i * 256) = Some r /\
    greenLUT !! Z.to_nat (i * 256) = Some g /\
    blueLUT !! Z.to_nat (i * 256) = Some b /\
    table !! Z.to_nat i
    = Some (JS.Int ((2 * r + 257) / 514), JS.Int ((2 * g + 257) / 514),
            JS.Int ((2 * b + 257) / 514)).
Proof.
  intros Hc Hbits Hget Hi Hn. apply (get_data_Ok o this Hc) in Hget.
  destruct (materialize_16_bits o this table Hc Hbits Hget)
    as (_ & redLUT & greenLUT & blueLUT & Hr & Hg & Hb & Hlr & Hlg & Hlb & Hlook).
  destruct (lookup_lt_is_Some_2 redLUT (Z.to_nat (i * 256))) as [r Hri]; [lia|].
  destruct (lookup_lt_is_Some_2 greenLUT (Z.to_nat (i * 256))) as [g Hgi]; [lia|].
  destruct (lookup_lt_is_Some_2 blueLUT (Z.to_nat (i * 256))) as [b Hbi]; [lia|].
  exists redLUT, greenLUT, blueLUT, r, g, b. repeat (split; [done|]).
  rewrite Hlook by done. unfold JS.get.
  destruct (Z.leb_spec 0 (i * 256)); [|lia].
  rewrite Hri, Hgi, Hbi. by rewrite !rescaled_closed_form.
Qed.

(** * A program that ends inside a segment *)

Section missing_operand.

Context (T : JS.DataType).

(** A Discrete loop depends on its value only through what the array
    stores for it. *)
Lemma discrete_loop_ToUint count j v w lut :
  JS.ToUint T v = JS.ToUint T w ->
  discrete_loop T count j v lut = discrete_loop T count j w lut.
Proof.
  intros H. revert j lut. induction count as [|count IH]; intros j lut;
    cbn [discrete_loop]; [done|].
  rewrite IH. unfold JS.set. by rewrite H.
Qed.

(** X22: a program may end after the length of its last segment.  The
    decoder then reads [undefined] for the value of a Discrete segment, or
    for the endpoint of a Linear one, and in both cases fills the segment
    with 0: the program decodes as if it ended with the Discrete segment
    [0, len, 0]. *)
Theorem expand_missing_value (n : Z) (segs : list (Z * Z * Z))
    (opcode len : Z) :
  supported opcode ->
  _expandSegmentedLUTData T n (Some (encode segs ++ [opcode; len]))
  = _expandSegmentedLUTData T n (Some (encode segs ++ [0; len; 0])).
Proof.
  intros Hop. unfold _expandSegmentedLUTData.
  destruct (new_TypedArray n) as [lut0|]; [|done]. cbn [mbind result_bind].
  rewrite !expand_loop_encode_app.
  destruct (expand_loop T (encode segs) _) as [st|]; [|done].
  cbn [expand_loop token tail]. unfold segment.
  destruct Hop as [-> | ->]; cbn [Z.eqb Pos.eqb];
    destruct (iterations (offset st) (JS.Int len)) as [j count];
    cbn [mbind result_bind lut JS.ToNumber JS.sub JS.div];
    rewrite ?linear_loop_NaN; f_equal;
    apply discrete_loop_ToUint; cbn;
    by rewrite Z.mod_0_l by (destruct T; done).
Qed.

End missing_operand.

(** * Witnesses of the further properties *)

Ltac plain_segments :=
  repeat (apply Forall_cons_2;
          [split; [unfold supported; simpl; lia | simpl; lia]|]);
  apply Forall_nil_2.

Ltac in_width_literal :=
  unfold in_width;
  repeat (apply Forall_cons_2; [simpl; lia|]); apply Forall_nil_2.

Lemma linear_segment_plateau_witness :
  exists lut',
    segment JS.Uint8Array 1 (JS.Int 3) (JS.Int 11)
      {| lut := [10; 0; 0; 0]; offset := JS.Int 1 |}
    = Ok {| lut := lut'; offset := JS.Int 4 |} /\
    JS.get lut' (JS.Int 3) = JS.Int 10.
Proof.
  destruct (linear_segment_plateau JS.Uint8Array [10; 0; 0; 0] 1 3 11 10)
    as (lut' & Hseg & Hk);
    [in_width_literal | unfold word16; lia | unfold word16; lia
     | lia | reflexivity | lia | lia |].
  exists lut'. split; [exact Hseg|]. apply Hk; simpl; lia.
Defined.


Lemma expand_keeps_the_width_witness :
  Forall (fun x => 0 <= x < 2 ^ 8) [44; 44; 44; 44].
Proof.
  apply (expand_keeps_the_width JS.Uint8Array 4 (Some [0; 5; 300])).
  reflexivity.
Defined.

Lemma expand_does_not_pad_witness :
  exists lut',
    _expandSegmentedLUTData JS.Uint8Array 4 (Some [0; 2; 7]) = Ok lut' /\
    JS.get lut' (JS.Int 3) = JS.Int 0.
Proof.
  destruct (expand_does_not_pad JS.Uint8Array 4 [(0, 2, 7)])
    as (lut' & Hexp & Hk); [lia | plain_segments |].
  exists lut'. split; [exact Hexp|]. apply Hk. cbn. lia.
Defined.

Lemma expand_prefix_stable_witness :
  exists lut1 lut2,
    _expandSegmentedLUTData JS.Uint8Array 4 (Some [0; 1; 10]) = Ok lut1 /\
    _expandSegmentedLUTData JS.Uint8Array 4 (Some [0; 1; 10; 1; 3; 20]) = Ok lut2 /\
    JS.get lut2 (JS.Int 0) = JS.get lut1 (JS.Int 0).
Proof.
  destruct (expand_prefix_stable JS.Uint8Array 4 [(0, 1, 10)] [(1, 3, 20)])
    as (lut1 & lut2 & H1 & H2 & Hk); [lia | plain_segments | plain_segments |].
  exists lut1, lut2. split; [exact H1|]. split; [exact H2|].
  apply Hk. cbn. lia.
Defined.


Lemma expand_dangling_opcode_witness :
  _expandSegmentedLUTData JS.Uint8Array 4 (Some [0; 2; 7; 1])
  = _expandSegmentedLUTData JS.Uint8Array 4 (Some [0; 2; 7]).
Proof.
  apply (expand_dangling_opcode JS.Uint8Array 4 [(0, 2, 7)] 1).
  unfold supported. lia.
Defined.

Lemma constructor_succeeds_iff_witness :
  accepted eight_bits_four_entries.
Proof.
  apply (constructor_succeeds_iff eight_bits_four_entries
           (constructed eight_bits_four_entries)).
  reflexivity.
Defined.

Lemma constructor_descriptor_errors_witness :
  constructor (table_options (2, 0, 12) (explicit [0; 1]) (explicit [0; 1])
                 (explicit [0; 1]))
  = Err UnsupportedBitsPerEntry.
Proof.
  apply (constructor_descriptor_errors
           (table_options (2, 0, 12) (explicit [0; 1]) (explicit [0; 1])
              (explicit [0; 1]))); cbn; (done || lia).
Defined.

Lemma build_cases_witness :
  exists this,
    _buildPaletteColorLookupTable "1.2.3" [(0, 0, 0); (255, 255, 255)] 0 16
    = Ok this /\
    numberOfEntries this = 2.
Proof.
  destruct (build_cases "1.2.3" [(0, 0, 0); (255, 255, 255)] 0 16)
    as (_ & _ & Hok).
  destruct Hok as (this & Hbuild & Hn & _); [by right | done |].
  by exists this.
Defined.

Lemma build_then_read_8_bits_witness :
  exists this,
    _buildPaletteColorLookupTable "1.2.3" [(0, 0, 0); (255, 128, 7)] 0 8
    = Ok this /\
    (get_data this).1
    = Ok [(JS.Int 0, JS.Int 0, JS.Int 0); (JS.Int 255, JS.Int 128, JS.Int 7)].
Proof.
  destruct (build_then_read_8_bits "1.2.3" [(0, 0, 0); (255, 128, 7)] 0)
    as (this & Hbuild & _ & Hread); [done|].
  exists this. split; [exact Hbuild|]. apply Hread.
  repeat (apply Forall_cons_2; [simpl; lia|]). apply Forall_nil_2.
Defined.

Lemma data_components_bytes_witness :
  exists this table,
    constructor eight_bits_four_entries = Ok this /\
    (get_data this).1 = Ok table /\
    byte (JS.Int 2) /\ byte (JS.Int 13) /\ byte (JS.Int 7).
Proof.
  eexists. eexists. split; [reflexivity|]. split; [vm_compute; reflexivity|].
  refine (data_components_bytes eight_bits_four_entries _ _ 1%nat _ _ _ _ _ _ _);
    [reflexivity | vm_compute; reflexivity | reflexivity | by left].
Defined.

Lemma data_16_bits_beyond_witness :
  exists this table,
    constructor sixteen_bits_two_entries = Ok this /\
    (get_data this).1 = Ok table /\
    table !! 255%nat = Some (JS.NaN, JS.NaN, JS.NaN).
Proof.
  eexists. eexists. split; [reflexivity|]. split; [vm_compute; reflexivity|].
  refine (data_16_bits_beyond sixteen_bits_two_entries _ _ 255 _ _ _ _ _);
    [reflexivity | reflexivity | vm_compute; reflexivity | lia | cbn; lia].
Defined.

Lemma data_read_failure_witness :
  exists this,
    constructor blue_missing = Ok this /\
    get_data this = (Err TypeError, this).
Proof.
  eexists. split; [reflexivity|].
  refine (proj1 (proj2 (data_read_failure blue_missing _ _ TypeError _ _)));
    [reflexivity | vm_compute; reflexivity].
Defined.


Lemma createColorMap_known_witness :
  createColorMap (fun _ _ => Some [(0, 0, 0); (9, 9, 9)]) "PHASE" 2
  = Returns [(9, 9, 9); (0, 0, 0)].
Proof.
  destruct (createColorMap_known (fun _ _ => Some [(0, 0, 0); (9, 9, 9)])
              "PHASE" 2) as (internalName & _ & H & _).
  - unfold ColorMaps. in_literals.
  - exact H.
Defined.

Lemma createColorMap_other_names_witness :
  createColorMap (fun _ _ => Some [(0, 0, 0)]) "jet" 2
  = Throws (UnknownColormap "jet").
Proof.
  apply (createColorMap_other_names (fun _ _ => Some [(0, 0, 0)]) "jet" 2).
  - unfold ColorMaps. rewrite !elem_of_cons, elem_of_nil.
    intros H. repeat destruct H as [H|H]; done.
  - unfold Object_prototype. rewrite !elem_of_cons, elem_of_nil.
    intros H. repeat destruct H as [H|H]; done.
Defined.

Lemma data_16_bits_closed_form_witness :
  exists this table,
    constructor sixteen_bits_two_entries = Ok this /\
    (get_data this).1 = Ok table /\
    table !! 0%nat = Some (JS.Int 255, JS.Int 4, JS.Int 0).
Proof.
  eexists. eexists. split; [reflexivity|]. split; [vm_compute; reflexivity|].
  destruct (data_16_bits_closed_form sixteen_bits_two_entries _ _ 0
              eq_refl eq_refl eq_refl)
    as (rl & gl & bl & r & g & b & Hr & Hg & Hb & Hri & Hgi & Hbi & Ht);
    [lia | cbn; lia |].
  vm_compute in Hr, Hg, Hb. inversion Hr; inversion Hg; inversion Hb; subst.
  vm_compute in Hri, Hgi, Hbi. inversion Hri; inversion Hgi; inversion Hbi; subst.
  exact Ht.
Defined.

Lemma expand_missing_value_witness :
  _expandSegmentedLUTData JS.Uint8Array 4 (Some [0; 1; 10; 1; 2])
  = _expandSegmentedLUTData JS.Uint8Array 4 (Some [0; 1; 10; 0; 2; 0]).
Proof.
  apply (expand_missing_value JS.Uint8Array 4 [(0, 1, 10)] 1 2).
  unfold supported. lia.
Defined.
